(** * smt-switch: sort inference and the logging solver

    A shallow embedding of [src/sort_inference.cpp] and
    [src/logging_solver.cpp], with the properties the specification states
    about them. *)

From stdpp Require Import base numbers list strings.

Set Default Proof Using "Type".

(* ===================================================================== *)
(** * Outcomes of a call *)
(* ===================================================================== *)

(** The exception classes of [exceptions.h] that the two files raise, and
    [SmtException] for whatever an inner backend raises. *)
Inductive exn : Type :=
| NotImplementedException
| IncorrectUsageException
| SmtException.

(** What a C++ call can do: return a value, throw, fail an [assert], or
    read a [std::vector] past its end with [operator[]]; the last one
    records the index and the size of the vector. *)
Inductive outcome (A : Type) : Type :=
| Ret (a : A)
| Throw (e : exn)
| AssertFail
| OutOfRange (i size : nat).

Arguments Ret {A} a.
Arguments Throw {A} e.
Arguments AssertFail {A}.
Arguments OutOfRange {A} i size.

#[global] Instance outcome_ret : MRet outcome := fun A a => Ret a.

#[global] Instance outcome_bind : MBind outcome := fun A B k m =>
  match m with
  | Ret a => k a
  | Throw e => Throw e
  | AssertFail => AssertFail
  | OutOfRange i n => OutOfRange i n
  end.

(** [v[i]] on a vector. *)
Definition index {A : Type} (v : list A) (i : nat) : outcome A :=
  match v !! i with
  | Some x => Ret x
  | None => OutOfRange i (length v)
  end.

(** [assert(c)] *)
Definition assert (c : bool) : outcome unit :=
  if c then Ret tt else AssertFail.

(* ===================================================================== *)
(** * Sorts and operators *)
(* ===================================================================== *)

Inductive SortKind : Type :=
| ARRAY | BOOL | BV | INT | REAL | FUNCTION | UNINTERPRETED | UNINTERPRETED_CONS.

#[global] Instance SortKind_eq_dec : EqDecision SortKind.
Proof. solve_decision. Defined.

(** The closed algebra of sorts.  Two sorts are the same sort when they
    have the same structure (the tests' [SameSortDiffObj]). *)
#[warnings="-register-all"] Inductive Sort : Type :=
| BoolSort
| BVSort (width : N)
| IntSort
| RealSort
| ArraySort (indexsort elemsort : Sort)
| FunctionSort (domain_sorts : list Sort) (codomain_sort : Sort)
| UninterpretedSort (name : string)
| UninterpretedConsSort (name : string) (arity : N)
| UninterpretedAppliedSort (cons : Sort) (param_sorts : list Sort).

Abbreviation SortVec := (list Sort).

Definition get_sort_kind (s : Sort) : SortKind :=
  match s with
  | BoolSort => BOOL
  | BVSort _ => BV
  | IntSort => INT
  | RealSort => REAL
  | ArraySort _ _ => ARRAY
  | FunctionSort _ _ => FUNCTION
  | UninterpretedSort _ => UNINTERPRETED
  | UninterpretedConsSort _ _ => UNINTERPRETED_CONS
  | UninterpretedAppliedSort _ _ => UNINTERPRETED
  end.

Definition get_domain_sorts (s : Sort) : outcome SortVec :=
  match s with
  | FunctionSort d _ => Ret d
  | _ => Throw IncorrectUsageException
  end.

Definition get_indexsort (s : Sort) : outcome Sort :=
  match s with
  | ArraySort i _ => Ret i
  | _ => Throw IncorrectUsageException
  end.

Definition get_elemsort (s : Sort) : outcome Sort :=
  match s with
  | ArraySort _ e => Ret e
  | _ => Throw IncorrectUsageException
  end.

(** Structural equality of sorts is decidable. *)
#[global] Instance Sort_eq_dec : EqDecision Sort.
Proof.
  refine (fix go (s t : Sort) {struct s} : Decision (s = t) :=
    let _ : EqDecision Sort := @go in
    match s, t with
    | BoolSort, BoolSort => left _
    | BVSort w, BVSort w' => cast_if (decide (w = w'))
    | IntSort, IntSort => left _
    | RealSort, RealSort => left _
    | ArraySort i e, ArraySort i' e' =>
        cast_if_and (decide (i = i')) (decide (e = e'))
    | FunctionSort d c, FunctionSort d' c' =>
        cast_if_and (decide (d = d')) (decide (c = c'))
    | UninterpretedSort n, UninterpretedSort n' => cast_if (decide (n = n'))
    | UninterpretedConsSort n a, UninterpretedConsSort n' a' =>
        cast_if_and (decide (n = n')) (decide (a = a'))
    | UninterpretedAppliedSort c p, UninterpretedAppliedSort c' p' =>
        cast_if_and (decide (c = c')) (decide (p = p'))
    | _, _ => right _
    end); abstract congruence.
Defined.

(** [operator==] and [operator!=] on [Sort]: structural comparison. *)
Definition Sort_eqb (s t : Sort) : bool := bool_decide (s = t).
Definition Sort_neqb (s t : Sort) : bool := negb (Sort_eqb s t).

(** The primitive operators of the dispatch table, and the null operator
    that a default-constructed [Op()] carries. *)
Inductive PrimOp : Type :=
| And | Or | Xor | Not | Implies | Iff | Ite | Equal | Distinct | Apply
| Plus | Minus | Negate | Mult | Div | Lt | Le | Gt | Ge | Mod | Abs | Pow
| IntDiv | To_Real | To_Int | Is_Int
| Concat | Extract | BVNot | BVNeg | BVAnd | BVOr | BVXor | BVNand | BVNor
| BVXnor | BVAdd | BVSub | BVMul | BVUdiv | BVSdiv | BVUrem | BVSrem | BVSmod
| BVShl | BVAshr | BVLshr | BVComp | BVUlt | BVUle | BVUgt | BVUge
| BVSlt | BVSle | BVSgt | BVSge
| Zero_Extend | Sign_Extend | Repeat | Rotate_Left | Rotate_Right
| BV_To_Nat | Int_To_BV | Select | Store
| NUM_OPS_AND_NULL.

#[global] Instance PrimOp_eq_dec : EqDecision PrimOp.
Proof. solve_decision. Defined.

(** An operator: a primitive operator and its integer indices. *)
Record Op : Type := mkOp { prim_op : PrimOp; indices : list N }.

#[global] Instance Op_eq_dec : EqDecision Op.
Proof. solve_decision. Defined.

(** [Op()] *)
Definition null_op : Op := mkOp NUM_OPS_AND_NULL [].

(** The interface of a term that sort inference uses. *)
Class AbsTerm (T : Type) := get_sort : T → Sort.

(* ===================================================================== *)
(** * sort_inference.cpp *)
(* ===================================================================== *)

Module SortInference.

(** [std::adjacent_find(first, last, p) != last] *)
Fixpoint adjacent_find {A : Type} (p : A → A → bool) (l : list A) : bool :=
  match l with
  | a :: (b :: _) as rest => if p a b then true else adjacent_find p rest
  | _ => false
  end.

Definition equal_sorts (sorts : SortVec) : outcome bool :=
  _ ← assert (negb (length sorts =? 0));
  Ret (negb (adjacent_find Sort_neqb sorts)).

Fixpoint equal_sortkinds_loop (first_sk : SortKind) (it : SortVec) : bool :=
  match it with
  | [] => true
  | s :: it' =>
      if negb (bool_decide (first_sk = get_sort_kind s)) then false
      else equal_sortkinds_loop first_sk it'
  end.

Definition equal_sortkinds (sorts : SortVec) : outcome bool :=
  _ ← assert (negb (length sorts =? 0));
  s0 ← index sorts 0;
  let first_sk := get_sort_kind s0 in
  Ret (equal_sortkinds_loop first_sk (drop 1 sorts)).

Definition check_ite_sorts (sorts : SortVec) : outcome bool :=
  _ ← assert (length sorts =? 3);
  s0 ← index sorts 0;
  if bool_decide (get_sort_kind s0 = BOOL) then
    s1 ← index sorts 1;
    s2 ← index sorts 2;
    Ret (Sort_eqb s1 s2)
  else Ret false.

Fixpoint check_sortkind_matches (sk : SortKind) (sorts : SortVec) : bool :=
  match sorts with
  | [] => true
  | sort :: rest =>
      if negb (bool_decide (sk = get_sort_kind sort)) then false
      else check_sortkind_matches sk rest
  end.

(** The body of the [for] loop of [check_apply_sorts], from index [i], with
    [n] iterations left ([n = domain_sorts.size() - i]). *)
Fixpoint check_apply_loop (domain_sorts sorts : SortVec) (i n : nat)
  : outcome bool :=
  match n with
  | 0 => Ret true
  | S n' =>
      d ← index domain_sorts i;
      a ← index sorts (i + 1);
      if Sort_neqb d a then Ret false
      else check_apply_loop domain_sorts sorts (S i) n'
  end.

Definition check_apply_sorts (sorts : SortVec) : outcome bool :=
  _ ← assert (negb (length sorts =? 0));
  funsort ← index sorts 0;
  if negb (bool_decide (get_sort_kind funsort = FUNCTION)) then Ret false
  else
    domain_sorts ← get_domain_sorts funsort;
    if negb (length domain_sorts =? length sorts + 1) then
      (* expecting same number of arguments to function as arity *)
      Ret false
    else check_apply_loop domain_sorts sorts 0 (length domain_sorts).

Definition check_select_sorts (sorts : SortVec) : outcome bool :=
  _ ← assert (negb (length sorts =? 0));
  if negb (length sorts =? 2) then Ret false
  else
    arrsort ← index sorts 0;
    if negb (bool_decide (get_sort_kind arrsort = ARRAY)) then Ret false
    else
      s1 ← index sorts 1;
      idx ← get_indexsort arrsort;
      if Sort_neqb s1 idx then Ret false else Ret true.

Definition check_store_sorts (sorts : SortVec) : outcome bool :=
  _ ← assert (negb (length sorts =? 0));
  if negb (length sorts =? 3) then Ret false
  else
    arrsort ← index sorts 0;
    if negb (bool_decide (get_sort_kind arrsort = ARRAY)) then Ret false
    else
      s1 ← index sorts 1;
      idx ← get_indexsort arrsort;
      if Sort_neqb s1 idx then Ret false
      else
        s2 ← index sorts 2;
        elem ← get_elemsort arrsort;
        if Sort_neqb s2 elem then Ret false else Ret true.

(** Modelled from the spec: [bool_sorts], the check the dispatch table
    names for the Boolean connectives, is declared outside the two source
    files ("Boolean connectives: all arguments Bool"). *)
Definition bool_sorts (sorts : SortVec) : outcome bool :=
  Ret (check_sortkind_matches BOOL sorts).

(** Modelled from the spec: [int_sorts] ("Integer-only: Int"). *)
Definition int_sorts (sorts : SortVec) : outcome bool :=
  Ret (check_sortkind_matches INT sorts).

(** Modelled from the spec: [real_sorts] ("To_Int: Real"). *)
Definition real_sorts (sorts : SortVec) : outcome bool :=
  Ret (check_sortkind_matches REAL sorts).

(** Modelled from the spec: [arithmetic_sorts] ("all arguments Int or all
    Real, consistent within a single call"). *)
Definition arithmetic_sorts (sorts : SortVec) : outcome bool :=
  Ret (check_sortkind_matches INT sorts || check_sortkind_matches REAL sorts).

(** Modelled from the spec: [bv_sorts] ("Bit-vector unary: BV"; "Concat:
    all BV, widths may differ"). *)
Definition bv_sorts (sorts : SortVec) : outcome bool :=
  Ret (check_sortkind_matches BV sorts).

(** Modelled from the spec: [eq_bv_sorts] ("all BV of identical width"). *)
Definition eq_bv_sorts (sorts : SortVec) : outcome bool :=
  if check_sortkind_matches BV sorts then equal_sorts sorts else Ret false.

(** The dispatch table: [sort_check_dispatch.find(po)], [None] for
    [end()]. *)
Definition sort_check_dispatch (po : PrimOp)
  : option (SortVec → outcome bool) :=
  match po with
  | And | Or | Xor | Not | Implies | Iff => Some bool_sorts
  | Ite => Some check_ite_sorts
  | Equal => Some bool_sorts
  | Distinct => Some bool_sorts
  | Apply => Some check_apply_sorts
  | Plus | Minus | Negate | Mult | Div => Some arithmetic_sorts
  | Lt | Le | Gt | Ge => Some bool_sorts
  | Mod | Abs | Pow | IntDiv | To_Real => Some int_sorts
  | To_Int => Some real_sorts
  | Is_Int => Some int_sorts
  | Concat | Extract | BVNot | BVNeg => Some bv_sorts
  | BVAnd | BVOr | BVXor | BVNand | BVNor | BVXnor | BVAdd | BVSub | BVMul
  | BVUdiv | BVSdiv | BVUrem | BVSrem | BVSmod | BVShl | BVAshr | BVLshr
  | BVComp | BVUlt | BVUle | BVUgt | BVUge | BVSlt | BVSle | BVSgt | BVSge =>
      Some eq_bv_sorts
  | Zero_Extend | Sign_Extend | Repeat | Rotate_Left | Rotate_Right
  | BV_To_Nat => Some bv_sorts
  | Int_To_BV => Some int_sorts
  | Select => Some check_select_sorts
  | Store => Some check_store_sorts
  | NUM_OPS_AND_NULL => None
  end.

Section CheckSortedness.
(** [get_arity] belongs to the operator module, which is not among the
    sources: the arity table is a parameter. *)
Variable get_arity : PrimOp → N * N.
Context {T : Type} `{!AbsTerm T}.

Definition check_sortedness (op : Op) (terms : list T) : outcome bool :=
  let min_max_arity := get_arity (prim_op op) in
  let num_args := N.of_nat (length terms) in
  if (num_args <? min_max_arity.1)%N || (min_max_arity.2 <? num_args)%N
  then (* wrong number of arguments *) Ret false
  else
    match sort_check_dispatch (prim_op op) with
    | Some check =>
        let sorts := get_sort <$> terms in
        check sorts
    | None => Throw NotImplementedException
    end.

(** The argument count lies within the arity bounds of the operator. *)
Definition arity_ok (op : Op) (terms : list T) : Prop :=
  ((get_arity (prim_op op)).1 ≤ N.of_nat (length terms)
   ∧ N.of_nat (length terms) ≤ (get_arity (prim_op op)).2)%N.
End CheckSortedness.

End SortInference.

(* ===================================================================== *)
(** * logging_solver.cpp *)
(* ===================================================================== *)

Module Logging.

(** The inner solver ([SmtSolver solver]): opaque terms and sorts, and the
    calls the logging solver forwards.  A call takes the state of the
    backend and gives the new one. *)
Class Backend (BState BTerm BSort : Type) : Type := {
  b_get_sort : BTerm → BSort;
  b_get_sort_kind : BSort → SortKind;
  b_is_value : BTerm → bool;
  b_make_term_bool : bool → BState → outcome (BTerm * BState);
  b_make_term_int : Z → BSort → BState → outcome (BTerm * BState);
  b_make_term_str : string → BSort → N → BState → outcome (BTerm * BState);
  b_make_term_const_array : BTerm → BSort → BState → outcome (BTerm * BState);
  b_make_symbol : string → BSort → BState → outcome (BTerm * BState);
  b_make_term1 : Op → BTerm → BState → outcome (BTerm * BState);
  b_make_term2 : Op → BTerm → BTerm → BState → outcome (BTerm * BState);
  b_make_term3 :
    Op → BTerm → BTerm → BTerm → BState → outcome (BTerm * BState);
  b_make_termN : Op → list BTerm → BState → outcome (BTerm * BState);
  b_get_value : BTerm → BState → outcome (BTerm * BState);
  (** the explicit assignments in iteration order, and the value left in
      the [out_const_base] reference (null when there is no base) *)
  b_get_array_values :
    BTerm → BState → outcome (list (BTerm * BTerm) * option BTerm * BState);
  b_reset : BState → outcome BState;
  b_reset_assertions : BState → outcome BState;
}.

(** What the logging solver uses of [LoggingSort] and of
    [logging_sort_computation]; neither is among the sources. *)
Class LoggingSortOps (LSort BSort : Type) : Type := {
  (** [lsort->sort], the wrapped sort *)
  ls_sort : LSort → BSort;
  ls_get_sort_kind : LSort → SortKind;
  ls_get_indexsort : LSort → outcome LSort;
  ls_get_elemsort : LSort → outcome LSort;
  (** [make_logging_sort(BOOL, sort)] *)
  make_logging_sort_BOOL : BSort → LSort;
  compute_sort : Op → list LSort → BSort → outcome LSort;
}.

Section LoggingSolver.
Context {BState BTerm BSort LSort : Type}.
Context `{!EqDecision BTerm, !EqDecision LSort}.
Context `{!Backend BState BTerm BSort, !LoggingSortOps LSort BSort}.

(** A [LoggingTerm] object.  [id] is the identity of the object (its
    address): two [Term] pointers are the same pointer when the [id]s
    agree.  [name] is the symbol name, present for symbols only. *)
#[warnings="-register-all"] Inductive LoggingTerm : Type := mkLoggingTerm {
  id : nat;
  term : BTerm;
  sort : LSort;
  op : Op;
  children : list LoggingTerm;
  name : option string;
}.

Abbreviation TermVec := (list LoggingTerm).

(** [is_value()], derived from the backend term. *)
Definition is_value (t : LoggingTerm) : bool := b_is_value (term t).

(** ** The term hash table *)

(** Modelled from the spec: the key of a logging term in the hash table
    (section 4.4; the table is not among the sources): "the tuple (op,
    sort, children_identities, symbol_name_if_any, is_value_hash)", where
    "values contribute a backend-provided value" and "children contribute
    their canonical identity". *)
Definition term_key (t : LoggingTerm)
  : Op * LSort * list nat * option string * option BTerm :=
  (op t, sort t, id <$> children t, name t,
   if is_value t then Some (term t) else None).

(** Modelled from the spec: the equality that the hash table sees,
    equality of the keys of section 4.4.  It compares the children by
    identity: "if the candidate includes non-canonical children, the
    children are assumed canonical".  The structural equality of section
    3, which compares the children in their turn, is
    [structurally_equal] below; the two agree on terms whose subterms are
    all entries of the table. *)
Definition term_equal (a b : LoggingTerm) : bool :=
  bool_decide (term_key a = term_key b).

(** Modelled from the spec: [TermHashTable], a set of logging terms with
    at most one entry per class of structurally equal terms. *)
Definition TermHashTable : Type := list LoggingTerm.

(** Modelled from the spec: [TermHashTable::lookup] "returns the canonical
    shared term (equal to the candidate)", if there is one. *)
Definition lookup (table : TermHashTable) (t : LoggingTerm)
  : option LoggingTerm :=
  List.find (term_equal t) table.

(** Modelled from the spec: [TermHashTable::insert]. *)
Definition insert (table : TermHashTable) (t : LoggingTerm) : TermHashTable :=
  t :: table.

(** Modelled from the spec: [TermHashTable::clear] "empties it". *)
Definition clear (table : TermHashTable) : TermHashTable := [].

(** ** The solver *)

(** The fields of [LoggingSolver], and the next free object identity of
    the allocator. *)
Record LoggingSolver : Type := mkLoggingSolver {
  solver : BState;
  hashtable : TermHashTable;
  next_id : nat;
}.

(** [LoggingSolver(SmtSolver s)] *)
Definition new_LoggingSolver (s : BState) : LoggingSolver :=
  mkLoggingSolver s [] 0.

(** The solver after a call to the backend that left it in state [bs]. *)
Definition with_solver (bs : BState) (s : LoggingSolver) : LoggingSolver :=
  mkLoggingSolver bs (hashtable s) (next_id s).

(** [new LoggingTerm(term, sort, op, children)] and the overload with a
    symbol name. *)
Definition new_LoggingTerm (t : BTerm) (so : LSort) (o : Op) (c : TermVec)
    (n : option string) (s : LoggingSolver) : LoggingTerm * LoggingSolver :=
  (mkLoggingTerm (next_id s) t so o c n,
   mkLoggingSolver (solver s) (hashtable s) (S (next_id s))).

(** The block every term constructor ends with:
    [if (!hashtable->lookup(res)) hashtable->insert(res); return res;]
    where [lookup] replaces [res] by the known term. *)
Definition check_hash_table (res : LoggingTerm) (s : LoggingSolver)
  : LoggingTerm * LoggingSolver :=
  match lookup (hashtable s) res with
  | Some known => (known, s)
  | None =>
      (res, mkLoggingSolver (solver s) (insert (hashtable s) res) (next_id s))
  end.

Definition M (A : Type) : Type := LoggingSolver → outcome (A * LoggingSolver).

(** [make_term(bool b)] *)
Definition make_term_bool (b : bool) : M LoggingTerm := λ s,
  '(wrapped_res, bs) ← b_make_term_bool b (solver s);
  let boolsort := make_logging_sort_BOOL (b_get_sort wrapped_res) in
  let '(res, s) :=
    new_LoggingTerm wrapped_res boolsort null_op [] None (with_solver bs s) in
  Ret (check_hash_table res s).

(** [make_term(int64_t i, const Sort & sort)] *)
Definition make_term_int (i : Z) (so : LSort) : M LoggingTerm := λ s,
  '(wrapped_res, bs) ← b_make_term_int i (ls_sort so) (solver s);
  let '(res, s) :=
    new_LoggingTerm wrapped_res so null_op [] None (with_solver bs s) in
  Ret (check_hash_table res s).

(** [make_term(const string name, const Sort & sort, uint64_t base)] *)
Definition make_term_str (nm : string) (so : LSort) (base : N)
  : M LoggingTerm := λ s,
  '(wrapped_res, bs) ← b_make_term_str nm (ls_sort so) base (solver s);
  let '(res, s) :=
    new_LoggingTerm wrapped_res so null_op [] None (with_solver bs s) in
  Ret (check_hash_table res s).

(** [make_term(const Term & val, const Sort & sort)], for constant
    arrays *)
Definition make_term_const_array (val : LoggingTerm) (so : LSort)
  : M LoggingTerm := λ s,
  '(wrapped_res, bs) ←
    b_make_term_const_array (term val) (ls_sort so) (solver s);
  if negb (bool_decide (ls_get_sort_kind so = ARRAY))
  then Throw IncorrectUsageException
  else
    (* the constant value must be the child *)
    let '(res, s) :=
      new_LoggingTerm wrapped_res so null_op [val] None (with_solver bs s) in
    Ret (check_hash_table res s).

(** [make_symbol(const string name, const Sort & sort)] *)
Definition make_symbol (nm : string) (so : LSort) : M LoggingTerm := λ s,
  '(wrapped_sym, bs) ← b_make_symbol nm (ls_sort so) (solver s);
  let '(res, s) :=
    new_LoggingTerm wrapped_sym so null_op [] (Some nm) (with_solver bs s) in
  Ret (check_hash_table res s).

(** [make_term(const Op op, const Term & t)] *)
Definition make_term1 (o : Op) (t : LoggingTerm) : M LoggingTerm := λ s,
  '(wrapped_res, bs) ← b_make_term1 o (term t) (solver s);
  res_logging_sort ← compute_sort o [sort t] (b_get_sort wrapped_res);
  let '(res, s) :=
    new_LoggingTerm wrapped_res res_logging_sort o [t] None
      (with_solver bs s) in
  Ret (check_hash_table res s).

(** [make_term(const Op op, const Term & t1, const Term & t2)] *)
Definition make_term2 (o : Op) (t1 t2 : LoggingTerm) : M LoggingTerm := λ s,
  '(wrapped_res, bs) ← b_make_term2 o (term t1) (term t2) (solver s);
  res_logging_sort ←
    compute_sort o [sort t1; sort t2] (b_get_sort wrapped_res);
  let '(res, s) :=
    new_LoggingTerm wrapped_res res_logging_sort o [t1; t2] None
      (with_solver bs s) in
  Ret (check_hash_table res s).

(** [make_term(const Op op, const Term & t1, const Term & t2,
    const Term & t3)] *)
Definition make_term3 (o : Op) (t1 t2 t3 : LoggingTerm)
  : M LoggingTerm := λ s,
  '(wrapped_res, bs) ←
    b_make_term3 o (term t1) (term t2) (term t3) (solver s);
  res_logging_sort ←
    compute_sort o [sort t1; sort t2; sort t3] (b_get_sort wrapped_res);
  let '(res, s) :=
    new_LoggingTerm wrapped_res res_logging_sort o [t1; t2; t3] None
      (with_solver bs s) in
  Ret (check_hash_table res s).

(** [make_term(const Op op, const TermVec & terms)] *)
Definition make_term (o : Op) (terms : TermVec) : M LoggingTerm := λ s,
  let lterms := term <$> terms in
  '(wrapped_res, bs) ← b_make_termN o lterms (solver s);
  let logging_sorts := sort <$> terms in
  res_logging_sort ←
    compute_sort o logging_sorts (b_get_sort wrapped_res);
  let '(res, s) :=
    new_LoggingTerm wrapped_res res_logging_sort o terms None
      (with_solver bs s) in
  Ret (check_hash_table res s).

(** [get_value(const Term & t)] *)
Definition get_value (t : LoggingTerm) : M LoggingTerm := λ s,
  '(wrapped_val, bs) ← b_get_value (term t) (solver s);
  let '(val, s) :=
    new_LoggingTerm wrapped_val (sort t) null_op [] None (with_solver bs s) in
  Ret (val, s).

(** [UnorderedTermMap]: the entries of the map, as a list without two
    entries of equal keys; keys are compared with the equality of terms.
    The order of the list stands for nothing in the program, whose
    iteration order is unspecified: what is said of a map is said up to
    the order of its entries. *)
Definition UnorderedTermMap : Type := list (LoggingTerm * LoggingTerm).

(** [m[k] = v] *)
Fixpoint map_assign (m : UnorderedTermMap) (k v : LoggingTerm)
  : UnorderedTermMap :=
  match m with
  | [] => [(k, v)]
  | (k', v') :: m' =>
      if term_equal k' k then (k', v) :: m'
      else (k', v') :: map_assign m' k v
  end.

(** The [for] loop of [get_array_values] over [wrapped_assignments]. *)
Fixpoint wrap_assignments (idxsort elemsort : LSort)
    (wrapped_assignments : list (BTerm * BTerm))
    (assignments : UnorderedTermMap) (s : LoggingSolver)
  : outcome (UnorderedTermMap * LoggingSolver) :=
  match wrapped_assignments with
  | [] => Ret (assignments, s)
  | elem :: rest =>
      (* expecting values in assignment map *)
      _ ← assert (b_is_value elem.1);
      _ ← assert (b_is_value elem.2);
      let '(idx, s) := new_LoggingTerm elem.1 idxsort null_op [] None s in
      let '(val, s) := new_LoggingTerm elem.2 elemsort null_op [] None s in
      wrap_assignments idxsort elemsort rest (map_assign assignments idx val) s
  end.

(** What a call of [get_array_values] leaves behind: the returned map, the
    caller's [out_const_base] argument after the call, and the last value
    of the callee's own [out_const_base] parameter, which dies at the
    return. *)
Record array_values : Type := mkArrayValues {
  assignments : UnorderedTermMap;
  caller_out_const_base : option LoggingTerm;
  param_out_const_base : option LoggingTerm;
}.

(** [get_array_values(const Term & arr, Term out_const_base)].  The second
    parameter is passed by value: the function works on a copy of the
    caller's pointer ([None] is the null pointer). *)
Definition get_array_values (arr : LoggingTerm)
    (out_const_base : option LoggingTerm) : M array_values := λ s,
  let caller_arg := out_const_base in
  let arrsort := sort arr in
  idxsort ← ls_get_indexsort arrsort;
  elemsort ← ls_get_elemsort arrsort;
  '(wrapped_assignments, wrapped_out_const_base, bs) ←
    b_get_array_values (term arr) (solver s);
  let s := with_solver bs s in
  '(out_const_base, s) ←
    match wrapped_out_const_base with
    | Some w =>
        if bool_decide (b_get_sort_kind (b_get_sort w) = ARRAY)
        then Throw NotImplementedException
        else
          let '(t, s) := new_LoggingTerm w elemsort null_op [] None s in
          Ret (Some t, s)
    | None => Ret (out_const_base, s)
    end;
  '(assignments, s) ←
    wrap_assignments idxsort elemsort wrapped_assignments [] s;
  Ret (mkArrayValues assignments caller_arg out_const_base, s).

(** [reset()] *)
Definition reset : M unit := λ s,
  bs ← b_reset (solver s);
  Ret (tt, mkLoggingSolver bs (clear (hashtable s)) (next_id s)).

(** [reset_assertions()] *)
Definition reset_assertions : M unit := λ s,
  bs ← b_reset_assertions (solver s);
  Ret (tt, with_solver bs s).

(** ** Histories of calls *)

(** The calls that hand logging terms to the caller. *)
Inductive call : Type :=
| MakeTermBool (b : bool)
| MakeTermInt (i : Z) (so : LSort)
| MakeTermStr (nm : string) (so : LSort) (base : N)
| MakeTermConstArray (val : LoggingTerm) (so : LSort)
| MakeSymbol (nm : string) (so : LSort)
| MakeTerm1 (o : Op) (t : LoggingTerm)
| MakeTerm2 (o : Op) (t1 t2 : LoggingTerm)
| MakeTerm3 (o : Op) (t1 t2 t3 : LoggingTerm)
| MakeTerm (o : Op) (terms : TermVec)
| GetValue (t : LoggingTerm)
| GetArrayValues (arr : LoggingTerm) (out_const_base : option LoggingTerm).

(** The term constructors: [make_term] in all its overloads and
    [make_symbol]. *)
Definition is_make (c : call) : bool :=
  match c with
  | GetValue _ | GetArrayValues _ _ => false
  | _ => true
  end.

(** Every call that returns terms. *)
Definition any_call (c : call) : bool := true.

(** A call that returns one term. *)
Definition returning (m : M LoggingTerm) : M TermVec := λ s,
  '(t, s) ← m s; Ret ([t], s).

(** The logging terms that the caller holds after a call: the returned
    term, or the keys and values of the returned map. *)
Definition exec (c : call) : M TermVec :=
  match c with
  | MakeTermBool b => returning (make_term_bool b)
  | MakeTermInt i so => returning (make_term_int i so)
  | MakeTermStr nm so base => returning (make_term_str nm so base)
  | MakeTermConstArray val so => returning (make_term_const_array val so)
  | MakeSymbol nm so => returning (make_symbol nm so)
  | MakeTerm1 o t => returning (make_term1 o t)
  | MakeTerm2 o t1 t2 => returning (make_term2 o t1 t2)
  | MakeTerm3 o t1 t2 t3 => returning (make_term3 o t1 t2 t3)
  | MakeTerm o terms => returning (make_term o terms)
  | GetValue t => returning (get_value t)
  | GetArrayValues arr out => λ s,
      '(r, s) ← get_array_values arr out s;
      Ret ((assignments r).*1 ++ (assignments r).*2, s)
  end.

(** [produced allowed s ts]: the solver can be in state [s], and [ts] are
    the logging terms it has handed out since it was created or last
    reset, when the calls that return terms are taken among [allowed].
    Calls that return no term (the forwarding ones, and those that end in
    an exception) reach the logging solver's own state through the backend
    only. *)
Inductive produced (allowed : call → bool)
  : LoggingSolver → TermVec → Prop :=
| produced_new bs : produced allowed (new_LoggingSolver bs) []
| produced_call c s ts rs s' :
    produced allowed s ts →
    allowed c = true →
    exec c s = Ret (rs, s') →
    produced allowed s' (rs ++ ts)
| produced_backend s ts bs :
    produced allowed s ts →
    produced allowed (with_solver bs s) ts
| produced_reset s ts s' :
    produced allowed s ts →
    reset s = Ret (tt, s') →
    produced allowed s' [].

(** The invariant of hash-consing, for the terms [ts] handed out: each is
    in the table, and two of them that the table takes for equal (they
    have one key) are one object. *)
Definition hash_consed (s : LoggingSolver) (ts : TermVec) : Prop :=
  (∀ t, t ∈ ts → t ∈ hashtable s)
  ∧ (∀ t u, t ∈ ts → u ∈ ts → term_equal t u = true → t = u).

(** No two entries of the table have one key. *)
Definition table_ok (table : TermHashTable) : Prop :=
  ∀ t u, t ∈ table → u ∈ table → term_equal t u = true → t = u.

(** A constructor that ends with the block [check_hash_table] on a
    candidate, the table being untouched before. *)
Definition hash_conses (m : M LoggingTerm) : Prop :=
  ∀ s t s', m s = Ret (t, s') →
    ∃ res s0, hashtable s0 = hashtable s ∧ check_hash_table res s0 = (t, s').

(** The backend answers a repeated [make_term(op, terms)] with the term it
    gave the first time. *)
Definition backend_repeats (o : Op) (lterms : list BTerm) (bs : BState)
  : Prop :=
  ∀ w bs', b_make_termN o lterms bs = Ret (w, bs') →
    ∃ bs'', b_make_termN o lterms bs' = Ret (w, bs'').

End LoggingSolver.

(** ** The calls that are handed to the backend as they are *)

(** The rest of the backend: options, assertions, the context stack and
    the satisfiability check, with results of type [Result]. *)
Class BackendControl (BState BTerm Result : Type) : Type := {
  b_set_opt : string → string → BState → outcome BState;
  b_set_logic : string → BState → outcome BState;
  b_assert_formula : BTerm → BState → outcome BState;
  b_check_sat : BState → outcome (Result * BState);
  b_check_sat_assuming : list BTerm → BState → outcome (Result * BState);
  b_push : N → BState → outcome BState;
  b_pop : N → BState → outcome BState;
}.

Section Forwarding.
Context {BState BTerm BSort LSort Result : Type}.
Context `{!Backend BState BTerm BSort, !BackendControl BState BTerm Result}.

Abbreviation LM := (@M BState BTerm LSort).
Abbreviation LTerm := (@LoggingTerm BTerm LSort).

(** [set_opt(const std::string option, const std::string value)] *)
Definition set_opt (opt value : string) : LM unit := λ s,
  bs ← b_set_opt opt value (solver s);
  Ret (tt, with_solver bs s).

(** [set_logic(const std::string logic)] *)
Definition set_logic (logic : string) : LM unit := λ s,
  bs ← b_set_logic logic (solver s);
  Ret (tt, with_solver bs s).

(** [assert_formula(const Term & t)] *)
Definition assert_formula (t : LTerm) : LM unit := λ s,
  bs ← b_assert_formula (term t) (solver s);
  Ret (tt, with_solver bs s).

(** [check_sat()] *)
Definition check_sat : LM Result := λ s,
  '(r, bs) ← b_check_sat (solver s);
  Ret (r, with_solver bs s).

(** [check_sat_assuming(const TermVec & assumptions)] *)
Definition check_sat_assuming (assumptions : list LTerm)
  : LM Result := λ s,
  let lassumps := term <$> assumptions in
  '(r, bs) ← b_check_sat_assuming lassumps (solver s);
  Ret (r, with_solver bs s).

(** [push(uint64_t num)] *)
Definition push (num : N) : LM unit := λ s,
  bs ← b_push num (solver s);
  Ret (tt, with_solver bs s).

(** [pop(uint64_t num)] *)
Definition pop (num : N) : LM unit := λ s,
  bs ← b_pop num (solver s);
  Ret (tt, with_solver bs s).

(** The calls that return no logging term. *)
Inductive control : Type :=
| SetOpt (opt value : string)
| SetLogic (logic : string)
| AssertFormula (t : LTerm)
| CheckSat
| CheckSatAssuming (assumptions : list LTerm)
| Push (num : N)
| Pop (num : N)
| ResetAssertions.

Definition no_result (m : LM unit) : LM (option Result) := λ s,
  '(_, s) ← m s; Ret (None, s).

Definition with_result (m : LM Result) : LM (option Result) := λ s,
  '(r, s) ← m s; Ret (Some r, s).

Definition exec_control (c : control) : LM (option Result) :=
  match c with
  | SetOpt opt value => no_result (set_opt opt value)
  | SetLogic logic => no_result (set_logic logic)
  | AssertFormula t => no_result (assert_formula t)
  | CheckSat => with_result check_sat
  | CheckSatAssuming assumptions => with_result (check_sat_assuming assumptions)
  | Push num => no_result (push num)
  | Pop num => no_result (pop num)
  | ResetAssertions => no_result reset_assertions
  end.
End Forwarding.

(** ** Identities and the terms of model values *)

Section Identities.
Context {BState BTerm BSort LSort : Type}.
Context `{!EqDecision BTerm, !EqDecision LSort}.
Context `{!Backend BState BTerm BSort, !LoggingSortOps LSort BSort}.

(** A logging term as [get_value] and [get_array_values] build them: a
    leaf of sort [so] around a backend term, with no operator, child or
    name, and an identity from [lo] up to [hi], [hi] excluded. *)
Definition wrapper (so : LSort) (lo hi : nat) (t : @LoggingTerm BTerm LSort)
  : Prop :=
  op t = null_op ∧ children t = [] ∧ name t = None ∧ sort t = so
  ∧ lo ≤ id t < hi.

(** The backend terms under the keys and values of a map. *)
Definition unwrap_map (m : @UnorderedTermMap BTerm LSort)
  : list (BTerm * BTerm) :=
  (λ kv, (term kv.1, term kv.2)) <$> m.

(** The keys of a map are wrappers of sort [ks], its values wrappers of
    sort [vs], all of them values of the backend. *)
Definition wrapped_map (ks vs : LSort) (lo hi : nat)
    (m : @UnorderedTermMap BTerm LSort) : Prop :=
  ∀ k v, (k, v) ∈ m →
    (wrapper ks lo hi k ∧ is_value k = true)
    ∧ (wrapper vs lo hi v ∧ is_value v = true).

(** Every object in the table or among [ts] was allocated before: its
    identity is below the next free one. *)
Definition ids_below (s : @LoggingSolver BState BTerm LSort)
    (ts : list (@LoggingTerm BTerm LSort)) : Prop :=
  ∀ t, t ∈ hashtable s ∨ t ∈ ts → id t < next_id s.

(** A constructor that allocates one candidate, with the next free
    identity, and ends with the block [check_hash_table] on it. *)
Definition allocates_one
    (m : @M BState BTerm LSort (@LoggingTerm BTerm LSort)) : Prop :=
  ∀ s t s', m s = Ret (t, s') →
    ∃ res s0,
      hashtable s0 = hashtable s
      ∧ next_id s0 = S (next_id s)
      ∧ id res = next_id s
      ∧ check_hash_table res s0 = (t, s').
End Identities.

(** ** Sessions *)

Section Sessions.
Context {BState BTerm BSort LSort : Type}.
Context `{!EqDecision BTerm, !EqDecision LSort}.
Context `{!Backend BState BTerm BSort, !LoggingSortOps LSort BSort}.

Abbreviation STerm := (@LoggingTerm BTerm LSort).
Abbreviation SSolver := (@LoggingSolver BState BTerm LSort).

(** Modelled from the spec: structural equality of logging terms (section
    3), "two logging terms are structurally equal iff their op, children,
    sort, and (if symbol) name are equal, with values compared through the
    backend".  The children are compared structurally in their turn; the
    identities of the objects play no part. *)
Fixpoint structurally_equal (a b : STerm) {struct a} : bool :=
  match a, b with
  | mkLoggingTerm _ ta sa oa ca na, mkLoggingTerm _ tb sb ob cb nb =>
      bool_decide (oa = ob)
      && bool_decide (sa = sb)
      && bool_decide (na = nb)
      && bool_decide ((if b_is_value ta then Some ta else None)
                      = (if b_is_value tb then Some tb else None))
      && (fix all_equal (l k : list STerm) {struct l} : bool :=
            match l, k with
            | [], [] => true
            | x :: l', y :: k' => structurally_equal x y && all_equal l' k'
            | _, _ => false
            end) ca cb
  end.

(** A term is canonical when it is an entry of the table and its children
    are canonical. *)
Fixpoint canonical (table : list STerm) (t : STerm) {struct t} : Prop :=
  match t with
  | mkLoggingTerm _ _ _ _ c _ =>
      t ∈ table
      ∧ (fix all_canonical (l : list STerm) {struct l} : Prop :=
           match l with
           | [] => True
           | x :: l' => canonical table x ∧ all_canonical l'
           end) c
  end.

(** [session s made]: the solver can be in state [s], and [made] are the
    logging terms that the constructors ([make_term] in all its overloads
    and [make_symbol]) have returned since the solver was created or last
    reset.  In between, [get_value] and [get_array_values] may have
    returned terms of their own, which are not kept in [made], and any
    call may have reached the backend. *)
Inductive session : SSolver → list STerm → Prop :=
| session_new bs : session (new_LoggingSolver bs) []
| session_make c s made rs s' :
    session s made →
    is_make c = true →
    exec c s = Ret (rs, s') →
    session s' (rs ++ made)
| session_query c s made rs s' :
    session s made →
    is_make c = false →
    exec c s = Ret (rs, s') →
    session s' made
| session_backend s made bs :
    session s made →
    session (with_solver bs s) made
| session_reset s made s' :
    session s made →
    reset s = Ret (tt, s') →
    session s' [].

(** The logging terms that a call takes as the children of the term it
    builds. *)
Definition call_args (c : @call BTerm LSort) : list STerm :=
  match c with
  | MakeTermConstArray val _ => [val]
  | MakeTerm1 _ t => [t]
  | MakeTerm2 _ t1 t2 => [t1; t2]
  | MakeTerm3 _ t1 t2 t3 => [t1; t2; t3]
  | MakeTerm _ terms => terms
  | _ => []
  end.

(** [continued s0 s ts]: from state [s0] the solver can reach state [s]
    by calls of any kind, further resets among them, and [ts] are the
    logging terms these calls have returned. *)
Inductive continued (s0 : SSolver) : SSolver → list STerm → Prop :=
| continued_here : continued s0 s0 []
| continued_call c s ts rs s' :
    continued s0 s ts →
    exec c s = Ret (rs, s') →
    continued s0 s' (rs ++ ts)
| continued_backend s ts bs :
    continued s0 s ts →
    continued s0 (with_solver bs s) ts
| continued_reset s ts s' :
    continued s0 s ts →
    reset s = Ret (tt, s') →
    continued s0 s' ts.
End Sessions.

End Logging.

(* ===================================================================== *)
(** * A small backend, to run the code on concrete inputs *)
(* ===================================================================== *)

Module Example.
Import SortInference Logging.

(** Modelled from the spec: an arity table to stand for [get_arity], which
    is not among the sources.  "Each PrimOp has a closed (min_arity,
    max_arity) pair; max_arity may be ∞ for associative operators (And, Or,
    Plus, Mult, BVAnd, BVOr, BVXor, BVAdd, BVMul, Concat)"; the unbounded
    maximum is [INT_MAX], [Apply] takes a function and any number of
    arguments, and the other operators have the number of arguments that
    the sort rules of the spec give them. *)
Definition INT_MAX : N := 2147483647.

Definition get_arity (po : PrimOp) : N * N :=
  match po with
  | And | Or | Plus | Mult
  | BVAnd | BVOr | BVXor | BVAdd | BVMul | Concat => (2, INT_MAX)
  | Apply => (1, INT_MAX)
  | Not | Negate | Abs | To_Real | To_Int | Is_Int | BVNot | BVNeg | Extract
  | Zero_Extend | Sign_Extend | Repeat | Rotate_Left | Rotate_Right
  | BV_To_Nat | Int_To_BV => (1, 1)
  | Ite | Store => (3, 3)
  | NUM_OPS_AND_NULL => (0, 0)
  | _ => (2, 2)
  end%N.

(** Terms that are nothing but a sort. *)
#[global] Instance Sort_AbsTerm : AbsTerm Sort := λ s, s.

(** The terms of the backend: syntax trees; it solves nothing. *)
#[warnings="-register-all"] Inductive TreeTerm : Type :=
| TBool (b : bool)
| TInt (i : Z)
| TSym (n : string) (so : Sort)
| TConstArray (so : Sort) (base : TreeTerm)
| TApp (o : Op) (args : list TreeTerm).

#[global] Instance TreeTerm_eq_dec : EqDecision TreeTerm.
Proof.
  refine (fix go (s t : TreeTerm) {struct s} : Decision (s = t) :=
    let _ : EqDecision TreeTerm := @go in
    match s, t with
    | TBool b, TBool b' => cast_if (decide (b = b'))
    | TInt i, TInt i' => cast_if (decide (i = i'))
    | TSym n so, TSym n' so' => cast_if_and (decide (n = n')) (decide (so = so'))
    | TConstArray so b, TConstArray so' b' =>
        cast_if_and (decide (so = so')) (decide (b = b'))
    | TApp o a, TApp o' a' => cast_if_and (decide (o = o')) (decide (a = a'))
    | _, _ => right _
    end); abstract congruence.
Defined.

Definition tree_sort (t : TreeTerm) : Sort :=
  match t with
  | TBool _ => BoolSort
  | TInt _ => IntSort
  | TSym _ so => so
  | TConstArray so _ => so
  | TApp _ _ => BoolSort
  end.

Definition tree_is_value (t : TreeTerm) : bool :=
  match t with
  | TBool _ | TInt _ | TConstArray _ _ => true
  | _ => false
  end.

Definition is_connective (o : Op) : bool :=
  match prim_op o with
  | And | Or | Xor | Not | Implies | Iff => true
  | _ => false
  end.

(** Only the Boolean connectives are applied. *)
Definition tree_apply (o : Op) (args : list TreeTerm) (bs : list string)
  : outcome (TreeTerm * list string) :=
  if is_connective o then Ret (TApp o args, bs) else Throw SmtException.

(** The model in which every Boolean symbol is false and every integer
    symbol is zero. *)
Definition tree_value (t : TreeTerm) : outcome TreeTerm :=
  match t with
  | TBool _ | TInt _ | TConstArray _ _ => Ret t
  | TSym _ BoolSort => Ret (TBool false)
  | TSym _ IntSort => Ret (TInt 0)
  | _ => Throw SmtException
  end.

(** The state of the backend is the list of the declared symbols. *)
#[global] Instance TreeBackend : Backend (list string) TreeTerm Sort := {|
  b_get_sort := tree_sort;
  b_get_sort_kind := get_sort_kind;
  b_is_value := tree_is_value;
  b_make_term_bool b bs := Ret (TBool b, bs);
  b_make_term_int i so bs :=
    if bool_decide (so = IntSort) then Ret (TInt i, bs)
    else Throw SmtException;
  b_make_term_str nm so base bs := Throw SmtException;
  b_make_term_const_array val so bs := Ret (TConstArray so val, bs);
  b_make_symbol nm so bs :=
    if bool_decide (nm ∈ bs) then Throw SmtException
    else Ret (TSym nm so, nm :: bs);
  b_make_term1 o t := tree_apply o [t];
  b_make_term2 o t1 t2 := tree_apply o [t1; t2];
  b_make_term3 o t1 t2 t3 := tree_apply o [t1; t2; t3];
  b_make_termN o ts := tree_apply o ts;
  b_get_value t bs := v ← tree_value t; Ret (v, bs);
  b_get_array_values t bs :=
    match t with
    | TConstArray _ base => Ret ([], Some base, bs)
    | _ => Throw SmtException
    end;
  b_reset bs := Ret [];
  b_reset_assertions bs := Ret bs;
|}.

(** Logging sorts whose wrapped sort is the sort itself; the connectives
    are the operators whose sort is computed. *)
#[global] Instance TreeLoggingSort : LoggingSortOps Sort Sort := {|
  ls_sort so := so;
  ls_get_sort_kind := get_sort_kind;
  ls_get_indexsort := get_indexsort;
  ls_get_elemsort := get_elemsort;
  make_logging_sort_BOOL _ := BoolSort;
  compute_sort o sorts bsort :=
    if is_connective o then Ret BoolSort else Throw NotImplementedException;
|}.

Abbreviation TLoggingTerm := (@LoggingTerm TreeTerm Sort).
Abbreviation TLoggingSolver := (@LoggingSolver (list string) TreeTerm Sort).

Definition solver0 : TLoggingSolver := new_LoggingSolver [].

(** The logging term of [true], as [make_term(true)] builds it first, and
    the solver after that call. *)
Definition lt_true : TLoggingTerm :=
  mkLoggingTerm 0 (TBool true) BoolSort null_op [] None.
Definition solver_true : TLoggingSolver := mkLoggingSolver [] [lt_true] 1.

(** The term that [get_value(lt_true)] returns then, and the solver after
    that call. *)
Definition lt_true_value : TLoggingTerm :=
  mkLoggingTerm 1 (TBool true) BoolSort null_op [] None.
Definition solver_true_value : TLoggingSolver :=
  mkLoggingSolver [] [lt_true] 2.

(** The conjunction of [true] with itself, as [make_term(And, ...)] builds
    it from [solver_true], and the solver after that call. *)
Definition lt_and : TLoggingTerm :=
  mkLoggingTerm 1 (TApp (mkOp And []) [TBool true; TBool true]) BoolSort
    (mkOp And []) [lt_true; lt_true] None.
Definition solver_and : TLoggingSolver :=
  mkLoggingSolver [] [lt_and; lt_true] 2.

(** The array of integers that is zero everywhere, as [make_term(0, Int)]
    and [make_term(zero, Array(Int, Int))] build it, and the solver after
    these calls. *)
Definition arr_sort : Sort := ArraySort IntSort IntSort.
Definition lt_zero : TLoggingTerm :=
  mkLoggingTerm 0 (TInt 0) IntSort null_op [] None.
Definition lt_arr : TLoggingTerm :=
  mkLoggingTerm 1 (TConstArray arr_sort (TInt 0)) arr_sort null_op [lt_zero]
    None.
Definition solver_arr : TLoggingSolver :=
  mkLoggingSolver [] [lt_arr; lt_zero] 2.

(** The wrapper of the constant base that [get_array_values] builds. *)
Definition lt_base : TLoggingTerm :=
  mkLoggingTerm 2 (TInt 0) IntSort null_op [] None.

(** What [get_array_values(lt_arr, null)] leaves behind from [solver_arr],
    and the solver after that call. *)
Definition values_arr : @array_values TreeTerm Sort :=
  mkArrayValues [] None (Some lt_base).
Definition solver_arr_values : TLoggingSolver :=
  mkLoggingSolver [] [lt_arr; lt_zero] 3.


(** The answers of a satisfiability check. *)
Inductive Result : Type := SAT | UNSAT | UNKNOWN.

(** The backend keeps no assertions and answers [UNKNOWN]; it asserts
    Boolean terms only. *)
#[global] Instance TreeControl : BackendControl (list string) TreeTerm Result
  := {|
  b_set_opt opt value bs := Ret bs;
  b_set_logic logic bs := Ret bs;
  b_assert_formula t bs :=
    if bool_decide (tree_sort t = BoolSort) then Ret bs
    else Throw SmtException;
  b_check_sat bs := Ret (UNKNOWN, bs);
  b_check_sat_assuming ts bs := Ret (UNKNOWN, bs);
  b_push num bs := Ret bs;
  b_pop num bs := Ret bs;
|}.

(** A second backend: the one above, but for [get_array_values] on array
    symbols.  It gives the symbol [a] the entries [1 ↦ 10] and [2 ↦ 20];
    for any other array symbol it reports an entry whose index is a
    symbol, which is no value.  In both cases there is no constant
    base. *)
Definition table_backend : Backend (list string) TreeTerm Sort := {|
  b_get_sort := tree_sort;
  b_get_sort_kind := get_sort_kind;
  b_is_value := tree_is_value;
  b_make_term_bool := b_make_term_bool (Backend := TreeBackend);
  b_make_term_int := b_make_term_int (Backend := TreeBackend);
  b_make_term_str := b_make_term_str (Backend := TreeBackend);
  b_make_term_const_array := b_make_term_const_array (Backend := TreeBackend);
  b_make_symbol := b_make_symbol (Backend := TreeBackend);
  b_make_term1 := b_make_term1 (Backend := TreeBackend);
  b_make_term2 := b_make_term2 (Backend := TreeBackend);
  b_make_term3 := b_make_term3 (Backend := TreeBackend);
  b_make_termN := b_make_termN (Backend := TreeBackend);
  b_get_value := b_get_value (Backend := TreeBackend);
  b_get_array_values t bs :=
    match t with
    | TSym n (ArraySort _ _) =>
        if bool_decide (n = "a"%string)
        then Ret ([(TInt 1, TInt 10); (TInt 2, TInt 20)], None, bs)
        else Ret ([(TSym "i" IntSort, TInt 0)], None, bs)
    | _ => b_get_array_values (Backend := TreeBackend) t bs
    end;
  b_reset := b_reset (Backend := TreeBackend);
  b_reset_assertions := b_reset_assertions (Backend := TreeBackend);
|}.

(** The array symbols [a] and [b], as [make_symbol] builds each of them
    first, and the solver after that call. *)
Definition lt_sym_a : TLoggingTerm :=
  mkLoggingTerm 0 (TSym "a" arr_sort) arr_sort null_op [] (Some "a"%string).
Definition solver_sym_a : TLoggingSolver :=
  mkLoggingSolver ["a"%string] [lt_sym_a] 1.
Definition lt_sym_b : TLoggingTerm :=
  mkLoggingTerm 0 (TSym "b" arr_sort) arr_sort null_op [] (Some "b"%string).
Definition solver_sym_b : TLoggingSolver :=
  mkLoggingSolver ["b"%string] [lt_sym_b] 1.

(** The map that [get_array_values(lt_sym_a, null)] returns from
    [solver_sym_a] with the second backend, and the solver after that
    call. *)
Definition leaf (i : nat) (z : Z) : TLoggingTerm :=
  mkLoggingTerm i (TInt z) IntSort null_op [] None.
Definition values_sym_a : @array_values TreeTerm Sort :=
  mkArrayValues [(leaf 1 1, leaf 2 10); (leaf 3 2, leaf 4 20)] None None.
Definition solver_sym_a_values : TLoggingSolver :=
  mkLoggingSolver ["a"%string] [lt_sym_a] 5.

(** An array of arrays that is [lt_arr] everywhere, as
    [make_term(lt_arr, Array(Int, Array(Int, Int)))] builds it from
    [solver_arr], and the solver after that call. *)
Definition arr2_sort : Sort := ArraySort IntSort arr_sort.
Definition lt_arr2 : TLoggingTerm :=
  mkLoggingTerm 2 (TConstArray arr2_sort (TConstArray arr_sort (TInt 0)))
    arr2_sort null_op [lt_arr] None.
Definition solver_arr2 : TLoggingSolver :=
  mkLoggingSolver [] [lt_arr2; lt_arr; lt_zero] 3.

(** The solver [solver_true] after [reset], and after [make_term(true)]
    on top of that. *)
Definition solver_true_reset : TLoggingSolver := mkLoggingSolver [] [] 1.
Definition solver_true_again : TLoggingSolver :=
  mkLoggingSolver [] [lt_true_value] 2.

(** The solver after [get_value(lt_true_value)] on top of that, and the
    term that this call returns. *)
Definition lt_true_value2 : TLoggingTerm :=
  mkLoggingTerm 2 (TBool true) BoolSort null_op [] None.
Definition solver_true_again2 : TLoggingSolver :=
  mkLoggingSolver [] [lt_true_value] 3.

(** From [solver_true_value], that is after [make_term(true)] and
    [get_value] of its result: the negation of [lt_true], and then the
    negation of the term that [get_value] returned, with the solver after
    each of the two calls. *)
Definition lt_not : TLoggingTerm :=
  mkLoggingTerm 2 (TApp (mkOp Not []) [TBool true]) BoolSort (mkOp Not [])
    [lt_true] None.
Definition solver_not : TLoggingSolver :=
  mkLoggingSolver [] [lt_not; lt_true] 3.
Definition lt_not_value : TLoggingTerm :=
  mkLoggingTerm 3 (TApp (mkOp Not []) [TBool true]) BoolSort (mkOp Not [])
    [lt_true_value] None.
Definition solver_not_value : TLoggingSolver :=
  mkLoggingSolver [] [lt_not_value; lt_not; lt_true] 4.

End Example.

(* ===================================================================== *)
(** * Properties of sort inference *)
(* ===================================================================== *)

Module SortInferenceSpec.
Import SortInference.

Lemma bool_decide_negb_false (P : Prop) `{!Decision P} :
  negb (bool_decide P) = false ↔ P.
Proof. rewrite negb_false_iff. apply bool_decide_eq_true. Qed.

(** [check_sortkind_matches sk] accepts the vectors whose sorts all have
    kind [sk]. *)
Lemma check_sortkind_matches_Forall sk sorts :
  check_sortkind_matches sk sorts = true
  ↔ Forall (λ s, get_sort_kind s = sk) sorts.
Proof.
  induction sorts as [|s sorts IH]; simpl.
  - split; [constructor | done].
  - rewrite Forall_cons. case_bool_decide as Hk; simpl.
    + rewrite IH. split; [by intros H; split | by intros [_ H]].
    + split; [done | by intros [H _]].
Qed.

Lemma kind_BOOL s : get_sort_kind s = BOOL ↔ s = BoolSort.
Proof. destruct s; simpl; split; congruence. Qed.

Section Dispatch.
Variable get_arity : PrimOp → N * N.
Context {T : Type} `{!AbsTerm T}.

(** Inside the arity bounds, [check_sortedness] is the dispatched check on
    the sorts of the terms. *)
Lemma check_sortedness_in_bounds op (terms : list T) check :
  arity_ok get_arity op terms →
  sort_check_dispatch (prim_op op) = Some check →
  check_sortedness get_arity op terms = check (get_sort <$> terms).
Proof.
  intros [Hlo Hhi] Hd. unfold check_sortedness. rewrite Hd.
  destruct (N.ltb_spec (N.of_nat (length terms)) (get_arity (prim_op op)).1);
    [lia|].
  destruct (N.ltb_spec (get_arity (prim_op op)).2 (N.of_nat (length terms)));
    [lia|done].
Qed.

(** What the code does for the operators that the table sends to
    [bool_sorts], [Equal], [Distinct] and the comparisons among them: the
    arguments must all be Boolean. *)
Lemma check_sortedness_bool_sorts op (terms : list T) :
  sort_check_dispatch (prim_op op) = Some bool_sorts →
  arity_ok get_arity op terms →
  check_sortedness get_arity op terms = Ret true
  ↔ Forall (λ t, get_sort t = BoolSort) terms.
Proof.
  intros Hd Hok. rewrite (check_sortedness_in_bounds _ _ _ Hok Hd).
  unfold bool_sorts. split.
  - intros [= H%check_sortkind_matches_Forall].
    apply Forall_fmap in H. eapply Forall_impl; [exact H|].
    intros t Ht. by apply kind_BOOL.
  - intros H. f_equal. apply check_sortkind_matches_Forall, Forall_fmap.
    eapply Forall_impl; [exact H|]. intros t Ht. by apply kind_BOOL.
Qed.
End Dispatch.

(** The loop of [check_apply_sorts], once the size guard has let it
    start: it ends on a mismatch or on a read at [sorts.size()]. *)
Lemma check_apply_loop_guarded domain_sorts sorts i n :
  i + n = length domain_sorts →
  length domain_sorts = length sorts + 1 →
  i + 1 ≤ length sorts →
  check_apply_loop domain_sorts sorts i n = Ret false
  ∨ check_apply_loop domain_sorts sorts i n
    = OutOfRange (length sorts) (length sorts).
Proof.
  revert i. induction n as [|n IH]; intros i Hin Hlen Hi; [lia|].
  cbn [check_apply_loop]. unfold index.
  destruct (domain_sorts !! i) as [d|] eqn:Hd; cycle 1.
  { apply lookup_ge_None in Hd. lia. }
  destruct (sorts !! (i + 1)) as [a|] eqn:Ha; simpl.
  - destruct (Sort_neqb d a); [by left|].
    apply IH; [lia|done|]. apply lookup_lt_Some in Ha. lia.
  - apply lookup_ge_None in Ha. right. f_equal. lia.
Qed.

(** The same loop, when in addition no argument sort differs from the
    domain sort of its position: it ends on the read at [sorts.size()]. *)
Lemma check_apply_loop_past_end domain_sorts sorts i n :
  i + n = length domain_sorts →
  length domain_sorts = length sorts + 1 →
  i + 1 ≤ length sorts →
  (∀ j a, sorts !! (j + 1) = Some a → domain_sorts !! j = Some a) →
  check_apply_loop domain_sorts sorts i n
  = OutOfRange (length sorts) (length sorts).
Proof.
  intros Hin Hlen Hi Hargs. revert i Hin Hi.
  induction n as [|n IH]; intros i Hin Hi; [lia|].
  cbn [check_apply_loop]. unfold index.
  destruct (domain_sorts !! i) as [d|] eqn:Hd; cycle 1.
  { apply lookup_ge_None in Hd. lia. }
  destruct (sorts !! (i + 1)) as [a|] eqn:Ha; simpl.
  - rewrite (Hargs _ _ Ha) in Hd. injection Hd as <-.
    unfold Sort_neqb, Sort_eqb. rewrite bool_decide_eq_true_2 by done. simpl.
    apply IH; [lia|]. apply lookup_lt_Some in Ha. lia.
  - apply lookup_ge_None in Ha. f_equal. lia.
Qed.

(** When the first sort is a function sort and the guard on the number of
    domain sorts is passed, [check_apply_sorts] answers [false] or reads
    [sorts[sorts.size()]]. *)
Lemma check_apply_sorts_guarded sorts d c :
  sorts !! 0 = Some (FunctionSort d c) →
  length d = length sorts + 1 →
  check_apply_sorts sorts = Ret false
  ∨ check_apply_sorts sorts = OutOfRange (length sorts) (length sorts).
Proof.
  intros H0 Hlen. unfold check_apply_sorts.
  assert (0 < length sorts) as Hpos by (by apply lookup_lt_Some in H0).
  destruct (Nat.eqb_spec (length sorts) 0) as [|_]; [lia|]. simpl.
  unfold index. rewrite H0. simpl.
  destruct (Nat.eqb_spec (length d) (length sorts + 1)) as [_|]; [|done].
  simpl. apply check_apply_loop_guarded; lia.
Qed.

(** [check_apply_sorts] accepts no vector of sorts. *)
Lemma check_apply_sorts_never_true sorts :
  check_apply_sorts sorts ≠ Ret true.
Proof.
  unfold check_apply_sorts.
  destruct (Nat.eqb_spec (length sorts) 0) as [|Hne]; [done|]. simpl.
  unfold index. destruct (sorts !! 0) as [funsort|] eqn:H0; [|done]. simpl.
  case_bool_decide as Hk; [|done]. simpl.
  destruct funsort as [| | | | |d c| | |]; try done. simpl.
  destruct (Nat.eqb_spec (length d) (length sorts + 1)) as [Hlen|]; [|done].
  simpl. intros Heq.
  destruct (check_apply_loop_guarded d sorts 0 (length d)) as [H|H];
    [lia|done|lia|congruence..].
Qed.

(** C7: with fewer arguments than the minimum arity of the operator, or
    more than its maximum arity, [check_sortedness] returns [false]: it
    does not throw. *)
Theorem check_sortedness_wrong_arity
    (get_arity : PrimOp → N * N) {T : Type} `{!AbsTerm T}
    (op : Op) (terms : list T) :
  (N.of_nat (length terms) < (get_arity (prim_op op)).1
   ∨ (get_arity (prim_op op)).2 < N.of_nat (length terms))%N →
  check_sortedness get_arity op terms = Ret false.
Proof.
  intros H. unfold check_sortedness.
  destruct (N.ltb_spec (N.of_nat (length terms)) (get_arity (prim_op op)).1);
    [done|].
  destruct (N.ltb_spec (get_arity (prim_op op)).2 (N.of_nat (length terms)));
    [done|lia].
Qed.

Lemma check_sortedness_wrong_arity_witness :
  check_sortedness Example.get_arity (mkOp Not []) [BoolSort; BoolSort]
  = Ret false.
Proof.
  apply (check_sortedness_wrong_arity Example.get_arity (mkOp Not [])
           [BoolSort; BoolSort]).
  right. vm_compute. reflexivity.
Defined.

(** C8: for an operator without an entry in the dispatch table, and a
    number of arguments inside its arity bounds, [check_sortedness] throws
    [NotImplementedException]. *)
Theorem check_sortedness_unknown_operator
    (get_arity : PrimOp → N * N) {T : Type} `{!AbsTerm T}
    (op : Op) (terms : list T) :
  sort_check_dispatch (prim_op op) = None →
  arity_ok get_arity op terms →
  check_sortedness get_arity op terms = Throw NotImplementedException.
Proof.
  intros Hd [Hlo Hhi]. unfold check_sortedness. rewrite Hd.
  destruct (N.ltb_spec (N.of_nat (length terms)) (get_arity (prim_op op)).1);
    [lia|].
  destruct (N.ltb_spec (get_arity (prim_op op)).2 (N.of_nat (length terms)));
    [lia|done].
Qed.

Lemma check_sortedness_unknown_operator_witness :
  check_sortedness Example.get_arity null_op ([] : list Sort)
  = Throw NotImplementedException.
Proof.
  apply (check_sortedness_unknown_operator Example.get_arity null_op []).
  - reflexivity.
  - split; vm_compute; discriminate.
Defined.

(** C1: the table sends [Equal] and [Distinct] to [bool_sorts], not to
    [equal_sorts]: two integer arguments, which share one sort (the check
    [equal_sorts] accepts them) and are within the arity bounds, are
    rejected. *)
Theorem equal_of_integers_rejected
    (get_arity : PrimOp → N * N) {T : Type} `{!AbsTerm T}
    (po : PrimOp) (x y : T) :
  po = Equal ∨ po = Distinct →
  get_sort x = IntSort →
  get_sort y = IntSort →
  arity_ok get_arity (mkOp po []) [x; y] →
  equal_sorts (get_sort <$> [x; y]) = Ret true
  ∧ check_sortedness get_arity (mkOp po []) [x; y] = Ret false.
Proof.
  intros Hpo Hx Hy Hok.
  rewrite (check_sortedness_in_bounds get_arity _ _ bool_sorts Hok)
    by (by destruct Hpo as [-> | ->]).
  simpl. by rewrite Hx, Hy.
Qed.

Lemma equal_of_integers_rejected_witness :
  equal_sorts (get_sort <$> [IntSort; IntSort]) = Ret true
  ∧ check_sortedness Example.get_arity (mkOp Equal []) [IntSort; IntSort]
    = Ret false.
Proof.
  apply (equal_of_integers_rejected Example.get_arity Equal IntSort IntSort).
  - left. reflexivity.
  - reflexivity.
  - reflexivity.
  - split; vm_compute; discriminate.
Defined.

(** C2: [check_apply_sorts] compares [domain_sorts.size()] with
    [sorts.size() + 1]: the application of a function to arguments that
    have its domain sorts, in order and in number, is rejected. *)
Theorem apply_of_function_rejected
    (get_arity : PrimOp → N * N) {T : Type} `{!AbsTerm T}
    (f : T) (args : list T) (domain : SortVec) (codomain : Sort) :
  get_sort f = FunctionSort domain codomain →
  get_sort <$> args = domain →
  arity_ok get_arity (mkOp Apply []) (f :: args) →
  length domain = length (f :: args) - 1
  ∧ check_sortedness get_arity (mkOp Apply []) (f :: args) = Ret false.
Proof.
  intros Hf Hargs Hok.
  assert (length domain = length args) as Hlen
    by (by rewrite <-Hargs, length_fmap).
  split; [simpl; lia|].
  rewrite (check_sortedness_in_bounds get_arity _ _ check_apply_sorts Hok)
    by done.
  unfold check_apply_sorts. rewrite fmap_cons, Hf. simpl.
  rewrite Hargs.
  destruct (Nat.eqb_spec (length domain) (S (length domain + 1))); [lia|done].
Qed.

Lemma apply_of_function_rejected_witness :
  length [IntSort] = length [FunctionSort [IntSort] IntSort; IntSort] - 1
  ∧ check_sortedness Example.get_arity (mkOp Apply [])
      [FunctionSort [IntSort] IntSort; IntSort]
    = Ret false.
Proof.
  apply (apply_of_function_rejected Example.get_arity
           (FunctionSort [IntSort] IntSort) [IntSort] [IntSort] IntSort).
  - reflexivity.
  - reflexivity.
  - split; vm_compute; discriminate.
Defined.

(** C3: the table sends the comparisons to [bool_sorts]: two integer
    arguments, or two real ones, which the check [arithmetic_sorts] of the
    arithmetic operators accepts and which are within the arity bounds,
    are rejected. *)
Theorem comparison_of_integers_rejected
    (get_arity : PrimOp → N * N) {T : Type} `{!AbsTerm T}
    (po : PrimOp) (x y : T) :
  po ∈ [Lt; Le; Gt; Ge] →
  (get_sort x = IntSort ∧ get_sort y = IntSort)
  ∨ (get_sort x = RealSort ∧ get_sort y = RealSort) →
  arity_ok get_arity (mkOp po []) [x; y] →
  arithmetic_sorts (get_sort <$> [x; y]) = Ret true
  ∧ check_sortedness get_arity (mkOp po []) [x; y] = Ret false.
Proof.
  intros Hpo Hxy Hok.
  assert (sort_check_dispatch po = Some bool_sorts) as Hd.
  { repeat (apply elem_of_cons in Hpo as [-> | Hpo]; [done|]).
    by apply elem_of_nil in Hpo. }
  rewrite (check_sortedness_in_bounds get_arity _ _ bool_sorts Hok) by done.
  simpl. by destruct Hxy as [[-> ->] | [-> ->]].
Qed.

Lemma comparison_of_integers_rejected_witness :
  arithmetic_sorts (get_sort <$> [IntSort; IntSort]) = Ret true
  ∧ check_sortedness Example.get_arity (mkOp Lt []) [IntSort; IntSort]
    = Ret false.
Proof.
  apply (comparison_of_integers_rejected Example.get_arity Lt IntSort IntSort).
  - apply list_elem_of_here.
  - left. split; reflexivity.
  - split; vm_compute; discriminate.
Defined.

(** C10: when the first sort is a function sort, the size guard of
    [check_apply_sorts] is passed and every argument sort that is there is
    the domain sort of its position, the loop reads [sorts[sorts.size()]],
    one past the end of the vector. *)
Theorem check_apply_sorts_reads_past_end
    (sorts domain : SortVec) (codomain : Sort) :
  sorts !! 0 = Some (FunctionSort domain codomain) →
  length domain = length sorts + 1 →
  (∀ i a, sorts !! (i + 1) = Some a → domain !! i = Some a) →
  check_apply_sorts sorts = OutOfRange (length sorts) (length sorts).
Proof.
  intros H0 Hlen Hargs. unfold check_apply_sorts.
  assert (0 < length sorts) as Hpos by (by apply lookup_lt_Some in H0).
  destruct (Nat.eqb_spec (length sorts) 0) as [|_]; [lia|]. simpl.
  unfold index. rewrite H0. simpl.
  destruct (Nat.eqb_spec (length domain) (length sorts + 1)) as [_|]; [|done].
  simpl. apply check_apply_loop_past_end; [lia|done|lia|done].
Qed.

Lemma check_apply_sorts_reads_past_end_witness :
  check_apply_sorts [FunctionSort [IntSort; IntSort] IntSort] = OutOfRange 1 1.
Proof.
  apply (check_apply_sorts_reads_past_end
           [FunctionSort [IntSort; IntSort] IntSort] [IntSort; IntSort]
           IntSort).
  - reflexivity.
  - reflexivity.
  - intros i a H. rewrite Nat.add_1_r in H. simpl in H. discriminate H.
Defined.

End SortInferenceSpec.

(* ===================================================================== *)
(** * Properties of the logging solver *)
(* ===================================================================== *)

Module LoggingSpec.
Import Logging.

Section LoggingSolver.
Context {BState BTerm BSort LSort : Type}.
Context `{!EqDecision BTerm, !EqDecision LSort}.
Context `{!Backend BState BTerm BSort, !LoggingSortOps LSort BSort}.

Abbreviation LoggingTerm := (@LoggingTerm BTerm LSort).
Abbreviation LoggingSolver := (@LoggingSolver BState BTerm LSort).
Implicit Types (t u res : LoggingTerm) (s : LoggingSolver).

(** ** Structural equality and the table *)

Lemma term_equal_key t u : term_equal t u = true ↔ term_key t = term_key u.
Proof. apply bool_decide_eq_true. Qed.

Lemma term_equal_sym t u : term_equal t u = term_equal u t.
Proof. unfold term_equal. apply bool_decide_ext. split; congruence. Qed.

Lemma lookup_key table t u :
  term_key t = term_key u → lookup table t = lookup table u.
Proof.
  intros Hk. unfold lookup. induction table as [|e table IH]; [done|].
  simpl. unfold term_equal at 1 3. rewrite Hk, IH. done.
Qed.

Lemma lookup_Some table t known :
  lookup table t = Some known → known ∈ table ∧ term_equal t known = true.
Proof.
  intros [Hin Heq]%find_some. split; [by apply list_elem_of_In|done].
Qed.

Lemma lookup_None table t e :
  lookup table t = None → e ∈ table → term_equal t e = false.
Proof.
  intros Hf Hin%list_elem_of_In. exact (find_none _ _ Hf _ Hin).
Qed.

Lemma check_hash_table_spec res s t s' :
  check_hash_table res s = (t, s') →
  solver s' = solver s
  ∧ t ∈ hashtable s'
  ∧ term_equal res t = true
  ∧ hashtable s ⊆ hashtable s'
  ∧ (table_ok (hashtable s) → table_ok (hashtable s')).
Proof.
  unfold check_hash_table.
  destruct (lookup (hashtable s) res) as [known|] eqn:Hl; intros [= <- <-].
  - apply lookup_Some in Hl as [Hin Heq]. done.
  - simpl. unfold insert. repeat split.
    + apply list_elem_of_here.
    + by apply term_equal_key.
    + intros e He. by apply list_elem_of_further.
    + intros Hok t u [->|Ht]%elem_of_cons [->|Hu]%elem_of_cons Heq.
      * done.
      * by rewrite (lookup_None _ _ _ Hl Hu) in Heq.
      * rewrite term_equal_sym, (lookup_None _ _ _ Hl Ht) in Heq. done.
      * by apply Hok.
Qed.

Ltac outcome_cases H :=
  repeat match type of H with
  | mbind _ ?m = Ret _ =>
      let E := fresh "E" in
      destruct m as [[]| | |] eqn:E; simpl in H; try discriminate H
  | (mbind _ ?m) = Ret _ =>
      let E := fresh "E" in
      destruct m as [?| | |] eqn:E; simpl in H; try discriminate H
  | (if ?c then _ else _) = Ret _ =>
      let E := fresh "E" in
      destruct c eqn:E; simpl in H; try discriminate H
  end.

Ltac hash_conses_tac :=
  let H := fresh "H" in
  intros ? ? ? H; cbv beta in H; unfold new_LoggingTerm in H;
  outcome_cases H; injection H as H;
  eexists _, _; split; [|exact H]; done.

Lemma make_term_bool_hash_conses b : hash_conses (make_term_bool b).
Proof. unfold make_term_bool. hash_conses_tac. Qed.

Lemma make_term_int_hash_conses i so : hash_conses (make_term_int i so).
Proof. unfold make_term_int. hash_conses_tac. Qed.

Lemma make_term_str_hash_conses nm so base :
  hash_conses (make_term_str nm so base).
Proof. unfold make_term_str. hash_conses_tac. Qed.

Lemma make_term_const_array_hash_conses val so :
  hash_conses (make_term_const_array val so).
Proof. unfold make_term_const_array. hash_conses_tac. Qed.

Lemma make_symbol_hash_conses nm so : hash_conses (make_symbol nm so).
Proof. unfold make_symbol. hash_conses_tac. Qed.

Lemma make_term1_hash_conses o t : hash_conses (make_term1 o t).
Proof. unfold make_term1. hash_conses_tac. Qed.

Lemma make_term2_hash_conses o t1 t2 : hash_conses (make_term2 o t1 t2).
Proof. unfold make_term2. hash_conses_tac. Qed.

Lemma make_term3_hash_conses o t1 t2 t3 :
  hash_conses (make_term3 o t1 t2 t3).
Proof. unfold make_term3. hash_conses_tac. Qed.

Lemma make_term_hash_conses o terms : hash_conses (make_term o terms).
Proof. unfold make_term. hash_conses_tac. Qed.


Lemma exec_make_hash_conses c s rs s' :
  is_make c = true →
  exec c s = Ret (rs, s') →
  ∃ t res s0,
    rs = [t] ∧ hashtable s0 = hashtable s ∧ check_hash_table res s0 = (t, s').
Proof.
  intros Hc He.
  assert (∃ m, hash_conses m ∧ exec c = returning m) as (m & Hm & Hex).
  { destruct c; try discriminate Hc; simpl; eexists; (split; [|reflexivity]);
      auto using make_term_bool_hash_conses, make_term_int_hash_conses,
        make_term_str_hash_conses, make_term_const_array_hash_conses,
        make_symbol_hash_conses, make_term1_hash_conses,
        make_term2_hash_conses, make_term3_hash_conses,
        make_term_hash_conses. }
  rewrite Hex in He. unfold returning in He.
  destruct (m s) as [[t s1]| | |] eqn:Em; simpl in He; try discriminate He.
  injection He as <- <-.
  destruct (Hm _ _ _ Em) as (res & s0 & Hs0 & Hchk). by exists t, res, s0.
Qed.

(** ** C5: hash-consing is idempotent *)

(** C5: when [make_term(op, terms)] has returned a term, and the backend
    repeats itself, a second [make_term(op, terms)] returns the same
    object and leaves the hash table as it is. *)
Theorem make_term_twice o (terms : list LoggingTerm) s t1 s1 :
  backend_repeats o (term <$> terms) (solver s) →
  make_term o terms s = Ret (t1, s1) →
  ∃ t2 s2,
    make_term o terms s1 = Ret (t2, s2)
    ∧ term_equal t1 t2 = true
    ∧ t2 = t1
    ∧ id t2 = id t1
    ∧ hashtable s2 = hashtable s1
    ∧ length (hashtable s2) = length (hashtable s1) + 0.
Proof.
  intros Hrep H. unfold make_term in *.
  destruct (b_make_termN o (term <$> terms) (solver s))
    as [[w bs]| | |] eqn:Eb; simpl in H; try discriminate H.
  destruct (compute_sort o (sort <$> terms) (b_get_sort w))
    as [so| | |] eqn:Ec; simpl in H; try discriminate H.
  injection H as H.
  destruct (Hrep _ _ Eb) as [bs'' Eb'].
  pose proof (check_hash_table_spec _ _ _ _ H) as (Hsol & Hin & _ & _ & _).
  simpl in Hsol. rewrite Hsol, Eb'. simpl. rewrite Ec. simpl.
  set (res := mkLoggingTerm (next_id s) w so o terms None) in *.
  set (res2 := mkLoggingTerm (next_id s1) w so o terms None).
  assert (term_key res2 = term_key res) as Hk by done.
  unfold check_hash_table in *. simpl in *.
  rewrite (lookup_key _ _ _ Hk).
  destruct (lookup (hashtable s) res) as [known|] eqn:Hl.
  - injection H as <- <-. simpl. rewrite Hl.
    exists known. eexists. split; [reflexivity|].
    split; [by apply term_equal_key|]. simpl. by rewrite Nat.add_0_r.
  - injection H as <- <-. simpl. unfold insert, lookup. simpl.
    replace (term_equal res res) with true
      by (symmetry; by apply term_equal_key).
    exists res. eexists. split; [reflexivity|].
    split; [by apply term_equal_key|]. simpl. by rewrite Nat.add_0_r.
Qed.

(** ** C9: [reset] and [reset_assertions] *)

(** C9: [reset] forwards to the backend and leaves an empty hash table;
    [reset_assertions] forwards to the backend and leaves the hash table
    as it is; an exception of the backend passes through both. *)
Theorem reset_clears_reset_assertions_keeps s :
  (∀ bs, b_reset (solver s) = Ret bs →
     ∃ s', reset s = Ret (tt, s')
           ∧ solver s' = bs
           ∧ hashtable s' = []
           ∧ length (hashtable s') = 0)
  ∧ (∀ bs, b_reset_assertions (solver s) = Ret bs →
       ∃ s', reset_assertions s = Ret (tt, s')
             ∧ solver s' = bs
             ∧ hashtable s' = hashtable s)
  ∧ (∀ e, b_reset (solver s) = Throw e → reset s = Throw e)
  ∧ (∀ e, b_reset_assertions (solver s) = Throw e →
       reset_assertions s = Throw e).
Proof.
  unfold reset, reset_assertions. repeat split.
  - intros bs ->. simpl. by eexists.
  - intros bs ->. simpl. by eexists.
  - by intros e ->.
  - by intros e ->.
Qed.

(** ** C6: the constant base of [get_array_values] *)

(** C6: when the backend reports a constant base that is no array,
    [get_array_values] builds the logging term that wraps it (next free
    identity, element sort of the array, null operator, no children) in its
    own copy of [out_const_base]; the caller's [out_const_base] is after
    the call what it was before. *)
Theorem get_array_values_const_base_lost
    (arr : LoggingTerm) (out : option LoggingTerm) s wrapped w bs r s' :
  b_get_array_values (term arr) (solver s) = Ret (wrapped, Some w, bs) →
  b_get_sort_kind (b_get_sort w) ≠ ARRAY →
  get_array_values arr out s = Ret (r, s') →
  caller_out_const_base r = out
  ∧ ∃ elemsort,
      ls_get_elemsort (sort arr) = Ret elemsort
      ∧ param_out_const_base r
        = Some (mkLoggingTerm (next_id s) w elemsort null_op [] None).
Proof.
  unfold get_array_values. intros Hb Hk H.
  destruct (ls_get_indexsort (sort arr)); simpl in H; try discriminate H.
  destruct (ls_get_elemsort (sort arr)) as [elemsort| | |]; simpl in H;
    try discriminate H.
  rewrite Hb in H. simpl in H.
  rewrite bool_decide_eq_false_2 in H by done. simpl in H.
  destruct (wrap_assignments _ _ _ _ _) as [[]| | |]; simpl in H;
    try discriminate H.
  injection H as <- <-. simpl. split; [done|]. by exists elemsort.
Qed.

End LoggingSolver.
End LoggingSpec.

(* ===================================================================== *)
(** * The logging solver on the small backend *)
(* ===================================================================== *)

Module ExampleSpec.
Import Logging LoggingSpec Example.

(** The example states are the ones the calls lead to. *)
Lemma example_states :
  make_term_bool true solver0 = Ret (lt_true, solver_true)
  ∧ get_value lt_true solver_true = Ret (lt_true_value, solver_true_value)
  ∧ make_term (mkOp And []) [lt_true; lt_true] solver_true
    = Ret (lt_and, solver_and)
  ∧ (r ← make_term_int 0 IntSort solver0;
     make_term_const_array r.1 arr_sort r.2) = Ret (lt_arr, solver_arr).
Proof. repeat split. Qed.

Lemma produced_solver_true allowed :
  allowed (MakeTermBool true) = true →
  produced allowed solver_true [lt_true].
Proof.
  intros Ha.
  exact (produced_call allowed (MakeTermBool true) solver0 [] [lt_true]
           solver_true (produced_new allowed []) Ha eq_refl).
Defined.

(** C4 (as stated) fails: after [make_term(true)] and [get_value] of the
    result, the solver has handed out two structurally equal terms that are
    two objects, and the second one is not in the hash table. *)
Lemma get_value_not_hash_consed :
  produced any_call solver_true_value [lt_true_value; lt_true]
  ∧ (lt_true_value ∉ hashtable solver_true_value)
  ∧ term_equal lt_true_value lt_true = true
  ∧ (id lt_true_value ≠ id lt_true)
  ∧ ¬ hash_consed solver_true_value [lt_true_value; lt_true].
Proof.
  assert (lt_true_value ∉ hashtable solver_true_value) as Hnotin.
  { simpl. intros [=]%list_elem_of_singleton. }
  split; [|split; [done|split; [done|split; [done|]]]].
  - exact (produced_call any_call (GetValue lt_true) solver_true [lt_true]
             [lt_true_value] solver_true_value
             (produced_solver_true any_call eq_refl) eq_refl eq_refl).
  - intros [Hin _]. apply Hnotin, Hin, list_elem_of_here.
Qed.

Lemma make_term_twice_witness :
  ∃ t2 s2,
    make_term (mkOp And []) [lt_true; lt_true] solver_and = Ret (t2, s2)
    ∧ term_equal lt_and t2 = true
    ∧ t2 = lt_and
    ∧ id t2 = id lt_and
    ∧ hashtable s2 = hashtable solver_and
    ∧ length (hashtable s2) = length (hashtable solver_and) + 0.
Proof.
  apply (make_term_twice (mkOp And []) [lt_true; lt_true] solver_true
           lt_and solver_and).
  - intros w bs' H. vm_compute in H. injection H as <- <-.
    eexists. reflexivity.
  - reflexivity.
Defined.

Lemma reset_clears_reset_assertions_keeps_witness :
  (∃ s', reset solver_and = Ret (tt, s')
         ∧ solver s' = []
         ∧ hashtable s' = []
         ∧ length (hashtable s') = 0)
  ∧ (∃ s', reset_assertions solver_and = Ret (tt, s')
           ∧ solver s' = []
           ∧ hashtable s' = [lt_and; lt_true]).
Proof.
  destruct (reset_clears_reset_assertions_keeps solver_and)
    as (Hreset & Hassertions & _).
  split.
  - apply (Hreset []). reflexivity.
  - apply (Hassertions []). reflexivity.
Defined.

Lemma get_array_values_const_base_lost_witness :
  get_array_values lt_arr None solver_arr = Ret (values_arr, solver_arr_values)
  ∧ caller_out_const_base values_arr = None
  ∧ ∃ elemsort,
      ls_get_elemsort (sort lt_arr) = Ret elemsort
      ∧ param_out_const_base values_arr
        = Some (mkLoggingTerm (next_id solver_arr) (TInt 0) elemsort null_op
                  [] None).
Proof.
  split; [reflexivity|].
  apply (get_array_values_const_base_lost lt_arr None solver_arr [] (TInt 0)
           [] values_arr solver_arr_values).
  - reflexivity.
  - vm_compute. discriminate.
  - reflexivity.
Defined.

End ExampleSpec.

(* ===================================================================== *)
(** * More on the checks of sort_inference.cpp *)
(* ===================================================================== *)

Module SortInferenceMore.
Import SortInference SortInferenceSpec.

Lemma Sort_neqb_false s t : Sort_neqb s t = false ↔ s = t.
Proof.
  unfold Sort_neqb, Sort_eqb. rewrite negb_false_iff. apply bool_decide_eq_true.
Qed.

Lemma Sort_neqb_true s t : Sort_neqb s t = true ↔ s ≠ t.
Proof.
  unfold Sort_neqb, Sort_eqb. rewrite negb_true_iff. apply bool_decide_eq_false.
Qed.

Lemma length_eqb_0 {A} (l : list A) : negb (length l =? 0) = false ↔ l = [].
Proof. destruct l; simpl; split; congruence. Qed.

(** [adjacent_find] finds no pair of neighbours that differ exactly when
    the vector is constant. *)
Lemma adjacent_find_neq_false (sorts : SortVec) :
  adjacent_find Sort_neqb sorts = false
  ↔ ∀ s t, s ∈ sorts → t ∈ sorts → s = t.
Proof.
  induction sorts as [|a [|b rest] IH].
  - split; [|done]. by intros _ s t Hs%elem_of_nil.
  - split; [|done].
    by intros _ s t ->%list_elem_of_singleton ->%list_elem_of_singleton.
  - cbn [adjacent_find]. destruct (Sort_neqb a b) eqn:Hab.
    + split; [done|]. intros Hall. apply Sort_neqb_true in Hab.
      destruct Hab. apply Hall; [left|right; left].
    + apply Sort_neqb_false in Hab as ->. rewrite IH. split.
      * intros Hall s t [->|Hs]%elem_of_cons [->|Ht]%elem_of_cons;
          auto using list_elem_of_here.
      * intros Hall s t Hs Ht. apply Hall; by right.
Qed.

(** X1: [equal_sorts] fails its assertion on the empty vector; on any other
    vector it returns, and it returns [true] exactly when all the sorts
    are one sort. *)
Theorem equal_sorts_all_equal (sorts : SortVec) :
  (sorts = [] → equal_sorts sorts = AssertFail)
  ∧ (sorts ≠ [] →
     ∃ b, equal_sorts sorts = Ret b
          ∧ (b = true ↔ ∀ s t, s ∈ sorts → t ∈ sorts → s = t)).
Proof.
  split; [by intros ->|]. intros Hne. unfold equal_sorts.
  destruct sorts as [|s0 rest]; [done|]. cbn -[adjacent_find].
  eexists. split; [done|].
  rewrite negb_true_iff. apply adjacent_find_neq_false.
Qed.

Lemma equal_sortkinds_loop_true sk (it : SortVec) :
  equal_sortkinds_loop sk it = true ↔ ∀ s, s ∈ it → get_sort_kind s = sk.
Proof.
  induction it as [|s it IH]; simpl.
  - split; [|done]. by intros _ s Hs%elem_of_nil.
  - case_bool_decide as Hk; simpl.
    + rewrite IH. split.
      * by intros Hall t [->|Ht]%elem_of_cons; auto.
      * intros Hall t Ht. apply Hall. by right.
    + split; [done|]. intros Hall. destruct Hk. symmetry. apply Hall. left.
Qed.

(** X2: [equal_sortkinds] fails its assertion on the empty vector; on any
    other vector it returns [true] exactly when every sort has the kind of
    the first one. *)
Theorem equal_sortkinds_all_equal (sorts : SortVec) :
  (sorts = [] → equal_sortkinds sorts = AssertFail)
  ∧ (∀ s0 rest, sorts = s0 :: rest →
     ∃ b, equal_sortkinds sorts = Ret b
          ∧ (b = true
             ↔ ∀ s, s ∈ sorts → get_sort_kind s = get_sort_kind s0)).
Proof.
  split; [by intros ->|]. intros s0 rest ->. unfold equal_sortkinds. simpl.
  eexists. split; [done|]. rewrite equal_sortkinds_loop_true. split.
  - by intros Hall s [->|Hs]%elem_of_cons; auto.
  - intros Hall s Hs. apply Hall. by right.
Qed.

(** X3: [check_sortkind_matches] accepts exactly the vectors whose sorts
    all have the given kind; the empty vector among them. *)
Theorem check_sortkind_matches_all sk (sorts : SortVec) :
  check_sortkind_matches sk [] = true
  ∧ (check_sortkind_matches sk sorts = true
     ↔ ∀ s, s ∈ sorts → get_sort_kind s = sk).
Proof.
  split; [done|]. rewrite check_sortkind_matches_Forall. apply Forall_forall.
Qed.

Lemma check_ite_sorts_cases (sorts : SortVec) :
  (length sorts ≠ 3 → check_ite_sorts sorts = AssertFail)
  ∧ (∀ c a b, sorts = [c; a; b] →
     ∃ r, check_ite_sorts sorts = Ret r
          ∧ (r = true ↔ c = BoolSort ∧ a = b)).
Proof.
  split.
  - intros Hlen. unfold check_ite_sorts.
    destruct (Nat.eqb_spec (length sorts) 3); [done|done].
  - intros c a b ->. unfold check_ite_sorts. simpl.
    case_bool_decide as Hk; simpl; eexists; (split; [done|]).
    + unfold Sort_eqb. rewrite bool_decide_eq_true. apply kind_BOOL in Hk.
      by split; [|intros [_ ?]].
    + split; [done|]. intros [Hc _]. by apply kind_BOOL in Hc.
Qed.

Lemma kind_ARRAY s : get_sort_kind s = ARRAY ↔ ∃ i e, s = ArraySort i e.
Proof.
  destruct s; simpl; split; try congruence; try (by intros (? & ? & ?));
    eauto.
Qed.

Lemma check_select_sorts_cases (sorts : SortVec) :
  (sorts = [] → check_select_sorts sorts = AssertFail)
  ∧ (sorts ≠ [] →
     ∃ b, check_select_sorts sorts = Ret b
          ∧ (b = true ↔ ∃ i e, sorts = [ArraySort i e; i])).
Proof.
  split; [by intros ->|]. intros Hne. unfold check_select_sorts.
  destruct sorts as [|a [|i [|x rest]]]; [done| | |]; simpl.
  - eexists. split; [done|]. split; [done|]. by intros (? & ? & ?).
  - case_bool_decide as Hk; simpl.
    + apply kind_ARRAY in Hk as (i' & e & ->). simpl.
      destruct (Sort_neqb i i') eqn:Hi; eexists; (split; [done|]).
      * apply Sort_neqb_true in Hi. split; [done|].
        intros (? & ? & ?). by simplify_eq.
      * apply Sort_neqb_false in Hi as ->. split; [eauto|done].
    + eexists. split; [done|]. split; [done|].
      intros (? & ? & ?); simplify_eq; by destruct Hk.
  - eexists. split; [done|]. split; [done|]. by intros (? & ? & ?).
Qed.

Lemma check_store_sorts_cases (sorts : SortVec) :
  (sorts = [] → check_store_sorts sorts = AssertFail)
  ∧ (sorts ≠ [] →
     ∃ b, check_store_sorts sorts = Ret b
          ∧ (b = true ↔ ∃ i e, sorts = [ArraySort i e; i; e])).
Proof.
  split; [by intros ->|]. intros Hne. unfold check_store_sorts.
  destruct sorts as [|a [|i [|v [|x rest]]]]; [done| | | |]; simpl.
  - eexists. split; [done|]. split; [done|]. by intros (? & ? & ?).
  - eexists. split; [done|]. split; [done|]. by intros (? & ? & ?).
  - case_bool_decide as Hk; simpl.
    + apply kind_ARRAY in Hk as (i' & e & ->). simpl.
      destruct (Sort_neqb i i') eqn:Hi.
      * eexists. split; [done|]. apply Sort_neqb_true in Hi.
        split; [done|]. intros (? & ? & ?). by simplify_eq.
      * apply Sort_neqb_false in Hi as ->. simpl.
        destruct (Sort_neqb v e) eqn:Hv; eexists; (split; [done|]).
        -- apply Sort_neqb_true in Hv. split; [done|].
           intros (? & ? & ?). by simplify_eq.
        -- apply Sort_neqb_false in Hv as ->. split; [eauto|done].
    + eexists. split; [done|]. split; [done|].
      intros (? & ? & ?); simplify_eq; by destruct Hk.
  - eexists. split; [done|]. split; [done|]. by intros (? & ? & ?).
Qed.

Lemma check_apply_sorts_nonempty (sorts : SortVec) :
  sorts ≠ [] →
  check_apply_sorts sorts = Ret false
  ∨ check_apply_sorts sorts = OutOfRange (length sorts) (length sorts).
Proof.
  intros Hne. destruct sorts as [|f rest]; [done|].
  destruct (decide (get_sort_kind f = FUNCTION)) as [Hk|Hk].
  - destruct f as [| | | | |domain codomain| | |]; try done.
    destruct (decide (length domain
                      = length (FunctionSort domain codomain :: rest) + 1))
      as [Hlen|Hlen].
    + by apply (check_apply_sorts_guarded _ domain codomain).
    + left. unfold check_apply_sorts. simpl. simpl in Hlen.
      by destruct (Nat.eqb_spec (length domain) (S (length rest + 1))).
  - left. unfold check_apply_sorts. simpl.
    by rewrite bool_decide_eq_false_2.
Qed.

(** X4: [check_ite_sorts] fails its assertion exactly when there are not
    three sorts; it returns [true] exactly on a Boolean sort followed by
    twice the same sort, and [false] on any other three sorts. *)
Theorem check_ite_sorts_three (sorts : SortVec) :
  (check_ite_sorts sorts = AssertFail ↔ length sorts ≠ 3)
  ∧ (check_ite_sorts sorts = Ret true ↔ ∃ a, sorts = [BoolSort; a; a])
  ∧ (length sorts = 3 →
     check_ite_sorts sorts = Ret true ∨ check_ite_sorts sorts = Ret false).
Proof.
  destruct (check_ite_sorts_cases sorts) as [Hne H3].
  destruct (decide (length sorts = 3)) as [Hl|Hl].
  - destruct sorts as [|c [|a [|b [|? ?]]]]; try done.
    destruct (H3 c a b eq_refl) as (r & Hr & Hiff). rewrite Hr.
    split; [done|]. split.
    + split.
      * intros [= ->]. destruct Hiff as [[-> ->] _]; [done|]. by exists b.
      * intros (x & [= -> -> ->]). f_equal. by apply Hiff.
    + intros _. destruct r; auto.
  - rewrite (Hne Hl). split; [done|]. split; [|done].
    split; [done|]. intros (a & ->). done.
Qed.

(** X5: [check_select_sorts] fails its assertion exactly on the empty
    vector; it returns [true] exactly on an array sort followed by its
    index sort, and [false] on any other vector that is not empty: it
    never reads past the end. *)
Theorem check_select_sorts_array_index (sorts : SortVec) :
  (check_select_sorts sorts = AssertFail ↔ sorts = [])
  ∧ (check_select_sorts sorts = Ret true
     ↔ ∃ i e, sorts = [ArraySort i e; i])
  ∧ (sorts ≠ [] →
     check_select_sorts sorts = Ret true
     ∨ check_select_sorts sorts = Ret false).
Proof.
  destruct (check_select_sorts_cases sorts) as [He Hne].
  destruct sorts as [|a rest].
  - rewrite He by done. split; [done|]. split; [|done].
    split; [done|]. by intros (? & ? & ?).
  - destruct Hne as (b & Hb & Hiff); [done|]. rewrite Hb.
    split; [done|]. split.
    + split; [intros [= ->]; by apply Hiff|].
      intros H. f_equal. by apply Hiff.
    + intros _. destruct b; auto.
Qed.

(** X6: [check_store_sorts] fails its assertion exactly on the empty
    vector; it returns [true] exactly on an array sort followed by its
    index sort and its element sort, and [false] on any other vector that
    is not empty: it never reads past the end. *)
Theorem check_store_sorts_array_index_elem (sorts : SortVec) :
  (check_store_sorts sorts = AssertFail ↔ sorts = [])
  ∧ (check_store_sorts sorts = Ret true
     ↔ ∃ i e, sorts = [ArraySort i e; i; e])
  ∧ (sorts ≠ [] →
     check_store_sorts sorts = Ret true
     ∨ check_store_sorts sorts = Ret false).
Proof.
  destruct (check_store_sorts_cases sorts) as [He Hne].
  destruct sorts as [|a rest].
  - rewrite He by done. split; [done|]. split; [|done].
    split; [done|]. by intros (? & ? & ?).
  - destruct Hne as (b & Hb & Hiff); [done|]. rewrite Hb.
    split; [done|]. split.
    + split; [intros [= ->]; by apply Hiff|].
      intros H. f_equal. by apply Hiff.
    + intros _. destruct b; auto.
Qed.

(** X7: [check_apply_sorts] has three outcomes: the failed assertion, on
    the empty vector only; [false], as when the first sort is no function
    sort; and the read at [sorts.size()].  It never returns [true]. *)
Theorem check_apply_sorts_outcomes (sorts : SortVec) :
  (check_apply_sorts sorts = AssertFail ↔ sorts = [])
  ∧ (∀ f, sorts !! 0 = Some f → get_sort_kind f ≠ FUNCTION →
       check_apply_sorts sorts = Ret false)
  ∧ (sorts ≠ [] →
       check_apply_sorts sorts = Ret false
       ∨ check_apply_sorts sorts = OutOfRange (length sorts) (length sorts)).
Proof.
  split; [|split].
  - split; [|by intros ->]. intros H.
    destruct sorts as [|f rest]; [done|].
    destruct (check_apply_sorts_nonempty (f :: rest)) as [H'|H'];
      [done|congruence..].
  - intros f H0 Hk. destruct sorts as [|f' rest]; [done|].
    injection H0 as ->. unfold check_apply_sorts. simpl.
    by rewrite bool_decide_eq_false_2.
  - apply check_apply_sorts_nonempty.
Qed.

Section Dispatched.
Variable get_arity : PrimOp → N * N.
Context {T : Type} `{!AbsTerm T}.

Lemma check_sortedness_true_arity_ok op (terms : list T) :
  check_sortedness get_arity op terms = Ret true →
  arity_ok get_arity op terms.
Proof.
  unfold check_sortedness, arity_ok.
  destruct (N.ltb_spec (N.of_nat (length terms)) (get_arity (prim_op op)).1);
    [done|].
  destruct (N.ltb_spec (get_arity (prim_op op)).2 (N.of_nat (length terms)));
    [done|]. done.
Qed.

(** X8: whatever the arity table, the indices of the operator and the
    terms, [check_sortedness] for [Apply] returns [false], fails the
    assertion of [check_apply_sorts] (no argument at all) or reads one
    past the end of the sorts: it does not return [true]. *)
Theorem check_sortedness_apply_outcomes idx (terms : list T) :
  check_sortedness get_arity (mkOp Apply idx) terms = Ret false
  ∨ (terms = []
     ∧ check_sortedness get_arity (mkOp Apply idx) terms = AssertFail)
  ∨ check_sortedness get_arity (mkOp Apply idx) terms
    = OutOfRange (length terms) (length terms).
Proof.
  unfold check_sortedness. simpl.
  destruct (_ || _); [by left|].
  destruct terms as [|f rest]; [right; by left|].
  destruct (check_apply_sorts_nonempty (get_sort <$> f :: rest))
    as [H|H]; [done|by left|].
  right. right. by rewrite length_fmap in H.
Qed.

(** X9: [check_sortedness] returns [true] for [Select] exactly when the
    argument count is within the arity bounds and the terms are an array
    and a term of its index sort; for [Store], an array, a term of its
    index sort and a term of its element sort. *)
Theorem check_sortedness_select_store idx (terms : list T) :
  (check_sortedness get_arity (mkOp Select idx) terms = Ret true
   ↔ arity_ok get_arity (mkOp Select idx) terms
     ∧ ∃ a i e, terms = [a; i] ∧ get_sort a = ArraySort (get_sort i) e)
  ∧ (check_sortedness get_arity (mkOp Store idx) terms = Ret true
     ↔ arity_ok get_arity (mkOp Store idx) terms
       ∧ ∃ a i v, terms = [a; i; v]
                  ∧ get_sort a = ArraySort (get_sort i) (get_sort v)).
Proof.
  split.
  - split.
    + intros H. pose proof (check_sortedness_true_arity_ok _ _ H) as Hok.
      split; [done|].
      rewrite (check_sortedness_in_bounds get_arity _ _ check_select_sorts Hok)
        in H by done.
      destruct (check_select_sorts_cases (get_sort <$> terms))
        as [He Hne].
      destruct terms as [|a rest]; [by rewrite He in H|].
      destruct Hne as (b & Hb & Hiff); [done|].
      rewrite Hb in H. injection H as ->.
      destruct Hiff as [(i & e & Heq) _]; [done|].
      destruct rest as [|x [|? ?]]; try done.
      injection Heq as Ha Hx. exists a, x, e. by rewrite Ha, Hx.
    + intros (Hok & a & i & e & -> & Ha).
      rewrite (check_sortedness_in_bounds get_arity _ _ check_select_sorts Hok)
        by done.
      destruct (check_select_sorts_cases (get_sort <$> [a; i]))
        as [_ (b & -> & Hiff)]; [done|].
      f_equal. apply Hiff. exists (get_sort i), e. simpl. by rewrite Ha.
  - split.
    + intros H. pose proof (check_sortedness_true_arity_ok _ _ H) as Hok.
      split; [done|].
      rewrite (check_sortedness_in_bounds get_arity _ _ check_store_sorts Hok)
        in H by done.
      destruct (check_store_sorts_cases (get_sort <$> terms))
        as [He Hne].
      destruct terms as [|a rest]; [by rewrite He in H|].
      destruct Hne as (b & Hb & Hiff); [done|].
      rewrite Hb in H. injection H as ->.
      destruct Hiff as [(i & e & Heq) _]; [done|].
      destruct rest as [|x [|y [|? ?]]]; try done.
      injection Heq as Ha Hx Hy. exists a, x, y. by rewrite Ha, Hx, Hy.
    + intros (Hok & a & i & v & -> & Ha).
      rewrite (check_sortedness_in_bounds get_arity _ _ check_store_sorts Hok)
        by done.
      destruct (check_store_sorts_cases (get_sort <$> [a; i; v]))
        as [_ (b & -> & Hiff)]; [done|].
      f_equal. apply Hiff. exists (get_sort i), (get_sort v). simpl.
      by rewrite Ha.
Qed.

(** X10: [check_sortedness] returns [true] for [Ite] exactly when the
    argument count is within the arity bounds and the terms are a Boolean
    term and two terms of one sort. *)
Theorem check_sortedness_ite idx (terms : list T) :
  check_sortedness get_arity (mkOp Ite idx) terms = Ret true
  ↔ arity_ok get_arity (mkOp Ite idx) terms
    ∧ ∃ c a b, terms = [c; a; b]
               ∧ get_sort c = BoolSort ∧ get_sort a = get_sort b.
Proof.
  split.
  - intros H. pose proof (check_sortedness_true_arity_ok _ _ H) as Hok.
    split; [done|].
    rewrite (check_sortedness_in_bounds get_arity _ _ check_ite_sorts Hok)
      in H by done.
    destruct (check_ite_sorts_cases (get_sort <$> terms)) as [Hlen H3].
    destruct (decide (length (get_sort <$> terms) = 3)) as [Hl|Hl];
      [|by rewrite Hlen in H].
    rewrite length_fmap in Hl.
    destruct terms as [|c [|a [|b [|? ?]]]]; try done.
    destruct (H3 _ _ _ eq_refl) as (r & Hr & Hiff).
    rewrite Hr in H. injection H as ->.
    exists c, a, b. split; [done|]. by apply Hiff.
  - intros (Hok & c & a & b & -> & Hc & Hab).
    rewrite (check_sortedness_in_bounds get_arity _ _ check_ite_sorts Hok)
      by done.
    destruct (check_ite_sorts_cases (get_sort <$> [c; a; b]))
      as [_ H3]. destruct (H3 _ _ _ eq_refl) as (r & -> & Hiff).
    f_equal. by apply Hiff.
Qed.
End Dispatched.

End SortInferenceMore.

(* ===================================================================== *)
(** * More on the logging solver *)
(* ===================================================================== *)

Module LoggingMore.
Import Logging LoggingSpec.

Section LoggingSolver.
Context {BState BTerm BSort LSort : Type}.
Context `{!EqDecision BTerm, !EqDecision LSort}.
Context `{!Backend BState BTerm BSort, !LoggingSortOps LSort BSort}.

Abbreviation LoggingTerm := (@LoggingTerm BTerm LSort).
Abbreviation LoggingSolver := (@LoggingSolver BState BTerm LSort).
Abbreviation TermMap := (@UnorderedTermMap BTerm LSort).
Implicit Types (t u k v res : LoggingTerm) (s : LoggingSolver).
Implicit Types (m acc : TermMap) (ks vs idxsort elemsort : LSort).

(** ** The block that checks the hash table *)

Lemma check_hash_table_cases res s t s' :
  check_hash_table res s = (t, s') →
  solver s' = solver s ∧ next_id s' = next_id s
  ∧ ((t ∈ hashtable s ∧ hashtable s' = hashtable s)
     ∨ (t = res ∧ hashtable s' = res :: hashtable s)).
Proof.
  unfold check_hash_table.
  destruct (lookup (hashtable s) res) as [known|] eqn:Hl; intros [= <- <-].
  - apply lookup_Some in Hl as [Hin _]. auto.
  - simpl. auto.
Qed.


(** ** Every constructor allocates one candidate *)

Ltac outcome_cases H :=
  repeat match type of H with
  | mbind _ ?m = Ret _ =>
      let E := fresh "E" in
      destruct m as [[]| | |] eqn:E; simpl in H; try discriminate H
  | (mbind _ ?m) = Ret _ =>
      let E := fresh "E" in
      destruct m as [?| | |] eqn:E; simpl in H; try discriminate H
  | (if ?c then _ else _) = Ret _ =>
      let E := fresh "E" in
      destruct c eqn:E; simpl in H; try discriminate H
  end.

Ltac allocates_one_tac :=
  let H := fresh "H" in
  intros ? ? ? H; cbv beta in H; unfold new_LoggingTerm in H;
  outcome_cases H; injection H as H;
  eexists _, _; split; [|split; [|split; [|exact H]]]; done.

Lemma exec_make_allocates_one c s rs s' :
  is_make c = true →
  exec c s = Ret (rs, s') →
  ∃ t res s0,
    rs = [t]
    ∧ hashtable s0 = hashtable s
    ∧ next_id s0 = S (next_id s)
    ∧ id res = next_id s
    ∧ check_hash_table res s0 = (t, s').
Proof.
  intros Hc He.
  assert (∃ mk, allocates_one mk ∧ exec c = returning mk) as (mk & Hm & Hex).
  { destruct c; try discriminate Hc; simpl; eexists; (split; [|reflexivity]).
    - unfold make_term_bool. allocates_one_tac.
    - unfold make_term_int. allocates_one_tac.
    - unfold make_term_str. allocates_one_tac.
    - unfold make_term_const_array. allocates_one_tac.
    - unfold make_symbol. allocates_one_tac.
    - unfold make_term1. allocates_one_tac.
    - unfold make_term2. allocates_one_tac.
    - unfold make_term3. allocates_one_tac.
    - unfold make_term. allocates_one_tac. }
  rewrite Hex in He. unfold returning in He.
  destruct (mk s) as [[t s1]| | |] eqn:Em; simpl in He; try discriminate He.
  injection He as <- <-.
  destruct (Hm _ _ _ Em) as (res & s0 & ? & ? & ? & ?). by exists t, res, s0.
Qed.

(** ** [get_value] and [get_array_values] *)

Lemma get_value_inv t s v s' :
  get_value t s = Ret (v, s') →
  ∃ w bs,
    b_get_value (term t) (solver s) = Ret (w, bs)
    ∧ v = mkLoggingTerm (next_id s) w (sort t) null_op [] None
    ∧ s' = mkLoggingSolver bs (hashtable s) (S (next_id s)).
Proof.
  unfold get_value. intros H.
  destruct (b_get_value (term t) (solver s)) as [[w bs]| | |]; simpl in H;
    try discriminate H.
  injection H as <- <-. by exists w, bs.
Qed.

Lemma wrapper_mono so lo hi hi' t :
  wrapper so lo hi t → hi ≤ hi' → wrapper so lo hi' t.
Proof.
  unfold wrapper. intros (? & ? & ? & ? & ? & ?) ?.
  repeat split; try done; lia.
Qed.

Lemma map_assign_wrapped ks vs lo hi m k v :
  wrapped_map ks vs lo hi m →
  wrapper ks lo hi k ∧ is_value k = true →
  wrapper vs lo hi v ∧ is_value v = true →
  wrapped_map ks vs lo hi (map_assign m k v).
Proof.
  intros Hm Hk Hv. induction m as [|[k' v'] m IH]; simpl.
  - intros k0 v0 Hin%list_elem_of_singleton. by injection Hin as -> ->.
  - assert (wrapped_map ks vs lo hi m) as Hm'.
    { intros k0 v0 Hin. apply Hm. by right. }
    destruct (Hm k' v') as [Hk' Hv']; [left|].
    destruct (term_equal k' k).
    + intros k0 v0 [Hin|Hin]%elem_of_cons; [by injection Hin as -> ->|].
      by apply Hm'.
    + intros k0 v0 [Hin|Hin]%elem_of_cons; [by injection Hin as -> ->|].
      by apply IH.
Qed.

Lemma wrapped_map_mono ks vs lo hi hi' m :
  wrapped_map ks vs lo hi m → hi ≤ hi' → wrapped_map ks vs lo hi' m.
Proof.
  intros Hm Hle k v Hin. destruct (Hm k v Hin) as [[? ?] [? ?]].
  repeat split; try done; by eapply wrapper_mono.
Qed.

Lemma map_assign_new m k v :
  (∀ k' v', (k', v') ∈ m → term_equal k' k = false) →
  map_assign m k v = m ++ [(k, v)].
Proof.
  induction m as [|[k' v'] m IH]; intros Hm; simpl; [done|].
  rewrite (Hm k' v') by left. rewrite IH; [done|].
  intros k0 v0 Hin. apply (Hm k0 v0). by right.
Qed.

(** The loop of [get_array_values]: when it ends, it has allocated two
    wrappers for each entry of the backend, all entries were values, and
    the solver is otherwise as before. *)
Lemma wrap_assignments_inv idxsort elemsort wa acc
    s m s' lo :
  wrap_assignments idxsort elemsort wa acc s = Ret (m, s') →
  lo ≤ next_id s →
  wrapped_map idxsort elemsort lo (next_id s) acc →
  solver s' = solver s
  ∧ hashtable s' = hashtable s
  ∧ next_id s' = next_id s + 2 * length wa
  ∧ wrapped_map idxsort elemsort lo (next_id s') m
  ∧ Forall (λ e, b_is_value e.1 = true ∧ b_is_value e.2 = true) wa.
Proof.
  revert acc s. induction wa as [|[wk wv] wa IH]; intros acc s H Hlo Hacc.
  - injection H as <- <-. simpl. rewrite Nat.add_0_r.
    do 4 (split; [done|]). constructor.
  - cbn [wrap_assignments] in H. simpl in H.
    destruct (b_is_value wk) eqn:Hwk; simpl in H; [|discriminate H].
    destruct (b_is_value wv) eqn:Hwv; simpl in H; [|discriminate H].
    apply IH in H as (Hsol & Htab & Hnext & Hm & Hall); simpl; [|lia|].
    + simpl in *. split; [done|]. split; [done|]. split; [lia|].
      split; [done|]. by constructor.
    + apply map_assign_wrapped.
      * eapply wrapped_map_mono; [exact Hacc|lia].
      * unfold wrapper, is_value. simpl. repeat split; try done; lia.
      * unfold wrapper, is_value. simpl. repeat split; try done; lia.
Qed.

(** The loop keeps the entries of the backend, in order, when no key
    comes twice. *)
Lemma wrap_assignments_unwrap idxsort elemsort wa acc
    s m s' :
  wrap_assignments idxsort elemsort wa acc s = Ret (m, s') →
  NoDup wa.*1 →
  (∀ k v, (k, v) ∈ acc → term k ∉ wa.*1) →
  unwrap_map m = unwrap_map acc ++ wa.
Proof.
  revert acc s. induction wa as [|[wk wv] wa IH]; intros acc s H Hnd Hacc.
  - injection H as <- <-. by rewrite app_nil_r.
  - cbn [wrap_assignments] in H. simpl in H.
    destruct (b_is_value wk) eqn:Hwk; simpl in H; [|discriminate H].
    destruct (b_is_value wv) eqn:Hwv; simpl in H; [|discriminate H].
    simpl in Hnd. apply NoDup_cons in Hnd as [Hwk_new Hnd].
    rewrite map_assign_new in H.
    + apply IH in H; [|done|].
      * rewrite H. unfold unwrap_map. rewrite fmap_app. simpl.
        by rewrite <-app_assoc.
      * intros k v [Hin|Hin]%elem_of_app.
        -- intros Hk. apply (Hacc k v Hin). simpl. by right.
        -- apply list_elem_of_singleton in Hin. by injection Hin as -> ->.
    + intros k' v' Hin. apply bool_decide_eq_false. intros Hkey.
      apply (Hacc k' v' Hin). simpl. apply elem_of_cons. left.
      unfold term_key, is_value in Hkey. simpl in Hkey. rewrite Hwk in Hkey.
      destruct (b_is_value (term k')); by simplify_eq.
Qed.

Lemma get_array_values_inv arr out s r s' :
  get_array_values arr out s = Ret (r, s') →
  ∃ idxsort elemsort wa base bs,
    ls_get_indexsort (sort arr) = Ret idxsort
    ∧ ls_get_elemsort (sort arr) = Ret elemsort
    ∧ b_get_array_values (term arr) (solver s) = Ret (wa, base, bs)
    ∧ solver s' = bs
    ∧ hashtable s' = hashtable s
    ∧ next_id s ≤ next_id s'
    ∧ wrapped_map idxsort elemsort (next_id s) (next_id s') (assignments r)
    ∧ Forall (λ e, b_is_value e.1 = true ∧ b_is_value e.2 = true) wa
    ∧ (NoDup wa.*1 → unwrap_map (assignments r) = wa).
Proof.
  unfold get_array_values. intros H.
  destruct (ls_get_indexsort (sort arr)) as [idxsort| | |]; simpl in H;
    try discriminate H.
  destruct (ls_get_elemsort (sort arr)) as [elemsort| | |]; simpl in H;
    try discriminate H.
  destruct (b_get_array_values (term arr) (solver s)) as [[[wa base] bs]| | |];
    simpl in H; try discriminate H.
  exists idxsort, elemsort, wa, base, bs. do 3 (split; [done|]).
  destruct base as [w|]; simpl in H.
  - destruct (bool_decide _); simpl in H; try discriminate H.
    destruct (wrap_assignments _ _ _ _ _) as [[m s1]| | |] eqn:Hw;
      simpl in H; try discriminate H.
    injection H as <- <-. simpl.
    pose proof (wrap_assignments_unwrap _ _ _ _ _ _ _ Hw) as Hun.
    apply wrap_assignments_inv with (lo := next_id s) in Hw
      as (Hsol & Htab & Hnext & Hm & Hall); simpl in *.
    + split; [done|]. split; [done|]. split; [lia|]. split; [done|].
      split; [done|].
      intros Hnd. apply Hun; [done|]. by intros k v Hin%elem_of_nil.
    + lia.
    + by intros k v Hin%elem_of_nil.
  - destruct (wrap_assignments _ _ _ _ _) as [[m s1]| | |] eqn:Hw;
      simpl in H; try discriminate H.
    injection H as <- <-. simpl.
    pose proof (wrap_assignments_unwrap _ _ _ _ _ _ _ Hw) as Hun.
    apply wrap_assignments_inv with (lo := next_id s) in Hw
      as (Hsol & Htab & Hnext & Hm & Hall); simpl in *.
    + split; [done|]. split; [done|]. split; [lia|]. split; [done|].
      split; [done|].
      intros Hnd. apply Hun; [done|]. by intros k v Hin%elem_of_nil.
    + lia.
    + by intros k v Hin%elem_of_nil.
Qed.

(** ** Identities are never handed out twice *)

Lemma exec_get_array_values_ids arr out s rs s' :
  exec (GetArrayValues arr out) s = Ret (rs, s') →
  hashtable s' = hashtable s
  ∧ next_id s ≤ next_id s'
  ∧ ∀ t, t ∈ rs → next_id s ≤ id t < next_id s'.
Proof.
  simpl. intros H.
  destruct (get_array_values arr out s) as [[r s1]| | |] eqn:Hg; simpl in H;
    try discriminate H.
  injection H as <- <-.
  apply get_array_values_inv in Hg
    as (idxsort & elemsort & wa & base & bs & _ & _ & _ & _ & Htab & Hle
        & Hm & _).
  split; [done|]. split; [done|].
  intros t [Ht|Ht]%elem_of_app;
    apply list_elem_of_fmap in Ht as ([k v] & -> & Hin);
    destruct (Hm k v Hin) as [[Hk _] [Hv _]]; simpl.
  - apply Hk.
  - apply Hv.
Qed.

(** In every history, the objects in the table and the objects handed out
    have identities below the next free one. *)
Lemma produced_ids_below allowed s (ts : list LoggingTerm) :
  produced allowed s ts → ids_below s ts.
Proof.
  induction 1 as [bs|c s ts rs s' _ IH Hc He|s ts bs _ IH|s ts s' _ _ Hr].
  - intros t [Ht|Ht]; simpl in Ht; by apply elem_of_nil in Ht.
  - destruct (is_make c) eqn:Hmk.
    + destruct (exec_make_allocates_one _ _ _ _ Hmk He)
        as (t & res & s0 & -> & Htab & Hnext & Hid & Hchk).
      apply check_hash_table_cases in Hchk as (_ & Hn & Hcases).
      intros u Hu. rewrite Hn, Hnext.
      assert (u ∈ hashtable s ∨ u ∈ ts ∨ u = res) as Hu'.
      { simpl in Hu.
        destruct Hcases as [[Ht Hs'] | [-> Hs']]; rewrite Hs', ?Htab in Hu;
          rewrite ?Htab in *; rewrite ?elem_of_cons in Hu;
          intuition (subst; auto). }
      destruct Hu' as [Hu' | [Hu' | ->]]; [| |lia];
        (eapply Nat.lt_le_trans; [apply IH; eauto|lia]).
    + destruct c; try discriminate Hmk.
      * simpl in He. unfold returning in He.
        destruct (get_value t s) as [[v s1]| | |] eqn:Hg; simpl in He;
          try discriminate He.
        injection He as <- <-.
        apply get_value_inv in Hg as (w & bs & _ & -> & ->). simpl.
        intros u [Hu | [-> | Hu]%elem_of_cons]; simpl; [|lia|];
          (eapply Nat.lt_le_trans; [apply IH; eauto|lia]).
      * apply exec_get_array_values_ids in He as (Htab & Hle & Hrs).
        intros u [Hu|[Hu|Hu]%elem_of_app]; rewrite ?Htab in *.
        -- eapply Nat.lt_le_trans; [apply IH; eauto|done].
        -- by apply Hrs.
        -- eapply Nat.lt_le_trans; [apply IH; eauto|done].
  - intros t Ht. simpl. by apply IH.
  - unfold reset in Hr.
    destruct (b_reset (solver s)) as [bs| | |]; simpl in Hr;
      try discriminate Hr.
    injection Hr as <-. intros t [Ht|Ht]; simpl in Ht;
      by apply elem_of_nil in Ht.
Qed.

(** X12: in any history of calls, [get_value] leaves the hash table as it
    is and returns a new object, a leaf of the sort of its argument, that
    is neither in the table nor among the terms handed out before. *)
Theorem get_value_fresh allowed s (ts : list LoggingTerm) t v s' :
  produced allowed s ts →
  get_value t s = Ret (v, s') →
  hashtable s' = hashtable s
  ∧ wrapper (sort t) (next_id s) (next_id s') v
  ∧ (v ∉ hashtable s')
  ∧ (v ∉ ts).
Proof.
  intros Hp%produced_ids_below (w & bs & _ & -> & ->)%get_value_inv. simpl.
  split; [done|]. split.
  { unfold wrapper. simpl. repeat split; try done; lia. }
  split; intros Hin.
  - pose proof (Hp _ (or_introl Hin)) as Hlt. simpl in Hlt. lia.
  - pose proof (Hp _ (or_intror Hin)) as Hlt. simpl in Hlt. lia.
Qed.

(** X13: in any history of calls, [get_array_values] leaves the hash table
    as it is; every key of the returned map is a new leaf of the index
    sort of the array, every value a new leaf of its element sort, both
    around values of the backend, and none of them is in the table. *)
Theorem get_array_values_fresh allowed s (ts : list LoggingTerm)
    arr out r s' :
  produced allowed s ts →
  get_array_values arr out s = Ret (r, s') →
  hashtable s' = hashtable s
  ∧ ∃ idxsort elemsort,
      ls_get_indexsort (sort arr) = Ret idxsort
      ∧ ls_get_elemsort (sort arr) = Ret elemsort
      ∧ wrapped_map idxsort elemsort (next_id s) (next_id s') (assignments r)
      ∧ ∀ k v, (k, v) ∈ assignments r →
          (k ∉ hashtable s') ∧ (v ∉ hashtable s') ∧ (k ∉ ts) ∧ (v ∉ ts).
Proof.
  intros Hp%produced_ids_below
    (idxsort & elemsort & wa & base & bs & Hi & He & _ & _ & Htab & _
     & Hm & _)%get_array_values_inv.
  split; [done|]. exists idxsort, elemsort. do 3 (split; [done|]).
  intros k v Hin. destruct (Hm k v Hin) as [[Hk _] [Hv _]].
  destruct Hk as (_ & _ & _ & _ & Hk & _).
  destruct Hv as (_ & _ & _ & _ & Hv & _).
  rewrite Htab.
  repeat split; intros Hx.
  - pose proof (Hp _ (or_introl Hx)). lia.
  - pose proof (Hp _ (or_introl Hx)). lia.
  - pose proof (Hp _ (or_intror Hx)). lia.
  - pose proof (Hp _ (or_intror Hx)). lia.
Qed.

(** X14: the map that [get_array_values] returns is the map of the backend
    under wrappers: when no key of the backend comes twice, the keys and
    values of the returned map, unwrapped, are the entries of the backend,
    each once, whatever the order of either. *)
Theorem get_array_values_unwrap arr out s r s' wa base bs :
  b_get_array_values (term arr) (solver s) = Ret (wa, base, bs) →
  NoDup wa.*1 →
  get_array_values arr out s = Ret (r, s') →
  unwrap_map (assignments r) ≡ₚ wa.
Proof.
  intros Hb Hnd
    (idxsort & elemsort & wa' & base' & bs' & _ & _ & Hb' & _ & _ & _ & _
     & _ & Hun)%get_array_values_inv.
  rewrite Hb in Hb'. injection Hb' as <- <- <-. by rewrite Hun.
Qed.

(** X15: a constant base that is itself an array makes [get_array_values]
    throw [NotImplementedException]. *)
Theorem get_array_values_array_base arr out s idxsort elemsort wa w bs :
  ls_get_indexsort (sort arr) = Ret idxsort →
  ls_get_elemsort (sort arr) = Ret elemsort →
  b_get_array_values (term arr) (solver s) = Ret (wa, Some w, bs) →
  b_get_sort_kind (b_get_sort w) = ARRAY →
  get_array_values arr out s = Throw NotImplementedException.
Proof.
  intros Hi He Hb Hk. unfold get_array_values.
  rewrite Hi, He. simpl. rewrite Hb. simpl.
  by rewrite bool_decide_eq_true_2.
Qed.

Lemma wrap_assignments_not_values idxsort elemsort wa acc s :
  ¬ Forall (λ e, b_is_value e.1 = true ∧ b_is_value e.2 = true) wa →
  wrap_assignments idxsort elemsort wa acc s = AssertFail.
Proof.
  revert acc s. induction wa as [|[wk wv] wa IH]; intros acc s Hnot.
  - destruct Hnot. constructor.
  - cbn [wrap_assignments]. simpl.
    destruct (b_is_value wk) eqn:Hwk; simpl; [|done].
    destruct (b_is_value wv) eqn:Hwv; simpl; [|done].
    apply IH. intros Hall. apply Hnot. by constructor.
Qed.

(** X16: when the backend reports an entry whose index or value is not a
    value (and a constant base, if any, that is no array),
    [get_array_values] fails its assertion. *)
Theorem get_array_values_not_values arr out s idxsort elemsort wa base bs :
  ls_get_indexsort (sort arr) = Ret idxsort →
  ls_get_elemsort (sort arr) = Ret elemsort →
  b_get_array_values (term arr) (solver s) = Ret (wa, base, bs) →
  (∀ w, base = Some w → b_get_sort_kind (b_get_sort w) ≠ ARRAY) →
  (∃ e, e ∈ wa ∧ (b_is_value e.1 = false ∨ b_is_value e.2 = false)) →
  get_array_values arr out s = AssertFail.
Proof.
  intros Hi He Hb Hbase (e & Hin & Hnv). unfold get_array_values.
  rewrite Hi, He. simpl. rewrite Hb. simpl.
  assert (¬ Forall (λ e, b_is_value e.1 = true ∧ b_is_value e.2 = true) wa)
    as Hnot.
  { intros Hall. rewrite Forall_forall in Hall.
    destruct (Hall e Hin) as [H1 H2]. destruct Hnv; congruence. }
  destruct base as [w|]; simpl.
  - rewrite bool_decide_eq_false_2 by (by apply Hbase). simpl.
    by rewrite wrap_assignments_not_values.
  - by rewrite wrap_assignments_not_values.
Qed.

(** ** The term constructors *)

(** X17: [make_term(val, sort)] with a sort that is no array sort never
    returns a term: it asks the backend first, and throws
    [IncorrectUsageException] when the backend has answered. *)
Theorem make_term_const_array_not_array (val : LoggingTerm) so s :
  ls_get_sort_kind so ≠ ARRAY →
  (∀ r, make_term_const_array val so s ≠ Ret r)
  ∧ (∀ w bs,
       b_make_term_const_array (term val) (ls_sort so) (solver s)
       = Ret (w, bs) →
       make_term_const_array val so s = Throw IncorrectUsageException)
  ∧ (∀ e,
       b_make_term_const_array (term val) (ls_sort so) (solver s) = Throw e →
       make_term_const_array val so s = Throw e).
Proof.
  intros Hk. unfold make_term_const_array.
  destruct (b_make_term_const_array (term val) (ls_sort so) (solver s))
    as [[w bs]| | |]; simpl; rewrite ?bool_decide_eq_false_2 by done; simpl;
    repeat split; intros; congruence.
Qed.

(** X18: a call that returns terms never removes an entry of the hash table
    and adds one at most: the table is as before, or it has the returned
    term, a new object, as one more entry. *)
Theorem exec_table_grows c s (rs : list LoggingTerm) s' :
  exec c s = Ret (rs, s') →
  next_id s ≤ next_id s'
  ∧ (hashtable s' = hashtable s
     ∨ ∃ t, rs = [t] ∧ id t = next_id s ∧ hashtable s' = t :: hashtable s).
Proof.
  intros He. destruct (is_make c) eqn:Hmk.
  - destruct (exec_make_allocates_one _ _ _ _ Hmk He)
      as (t & res & s0 & -> & Htab & Hnext & Hid & Hchk).
    apply check_hash_table_cases in Hchk as (_ & Hn & Hcases).
    split; [lia|]. destruct Hcases as [[_ Hs'] | [-> Hs']].
    + left. congruence.
    + right. exists res. rewrite Hs', Htab. done.
  - destruct c; try discriminate Hmk.
    + simpl in He. unfold returning in He.
      destruct (get_value t s) as [[v s1]| | |] eqn:Hg; simpl in He;
        try discriminate He.
      injection He as <- <-.
      apply get_value_inv in Hg as (w & bs & _ & -> & ->). simpl.
      split; [lia|by left].
    + apply exec_get_array_values_ids in He as (Htab & Hle & _).
      split; [done|by left].
Qed.

(** X19: the overloads of [make_term] for one, two and three arguments
    return what the overload for a vector returns on the same arguments,
    whenever the backend makes no difference between its overloads. *)
Theorem make_term_overloads_agree o (t1 t2 t3 : LoggingTerm) s :
  (b_make_term1 o (term t1) (solver s)
   = b_make_termN o [term t1] (solver s) →
   make_term1 o t1 s = make_term o [t1] s)
  ∧ (b_make_term2 o (term t1) (term t2) (solver s)
     = b_make_termN o [term t1; term t2] (solver s) →
     make_term2 o t1 t2 s = make_term o [t1; t2] s)
  ∧ (b_make_term3 o (term t1) (term t2) (term t3) (solver s)
     = b_make_termN o [term t1; term t2; term t3] (solver s) →
     make_term3 o t1 t2 t3 s = make_term o [t1; t2; t3] s).
Proof.
  unfold make_term1, make_term2, make_term3, make_term.
  repeat split; intros ->; reflexivity.
Qed.

(** ** Sessions with calls of every kind *)

(** A call that is no constructor leaves the hash table as it is. *)
Lemma exec_query_table c s (rs : list LoggingTerm) s' :
  is_make c = false →
  exec c s = Ret (rs, s') →
  hashtable s' = hashtable s.
Proof.
  intros Hmk He. destruct c; try discriminate Hmk.
  - simpl in He. unfold returning in He.
    destruct (get_value t s) as [[v s1]| | |] eqn:Hg; simpl in He;
      try discriminate He.
    injection He as <- <-.
    by apply get_value_inv in Hg as (w & bs & _ & -> & ->).
  - by apply exec_get_array_values_ids in He as (Htab & _).
Qed.

(** In a session, no two entries of the table have one key, and the terms
    that the constructors returned are entries of the table. *)
Lemma session_table s (made : list LoggingTerm) :
  session s made →
  table_ok (hashtable s) ∧ ∀ t, t ∈ made → t ∈ hashtable s.
Proof.
  induction 1 as [bs|c s made rs s' _ [Hok Hin] Hc He
                 |c s made rs s' _ [Hok Hin] Hc He|s made bs _ IH
                 |s made s' _ _ Hr].
  - split; [|by intros t Ht%elem_of_nil]. intros t u Ht%elem_of_nil. done.
  - destruct (exec_make_hash_conses _ _ _ _ Hc He)
      as (t & res & s0 & -> & Hs0 & Hchk).
    apply check_hash_table_spec in Hchk as (_ & Ht & _ & Hsub & Hok').
    rewrite Hs0 in Hsub, Hok'. split; [by apply Hok'|].
    intros u [->|Hu]%elem_of_cons; [done|]. by apply Hsub, Hin.
  - by rewrite (exec_query_table _ _ _ _ Hc He).
  - done.
  - unfold reset in Hr.
    destruct (b_reset (solver s)) as [bs| | |]; simpl in Hr;
      try discriminate Hr.
    injection Hr as <-. simpl. unfold clear.
    split; [|by intros t Ht%elem_of_nil]. intros t u Ht%elem_of_nil. done.
Qed.

(** On canonical terms of a table without two entries of one key,
    structural equality is identity. *)
Lemma structurally_equal_canonical (table : list LoggingTerm) :
  table_ok table →
  ∀ t u, canonical table t → canonical table u →
    structurally_equal t u = true → t = u.
Proof.
  intros Hok. fix IH 1.
  intros [ia ta sa oa ca na] [ib tb sb ob cb nb] Ht Hu Heq.
  cbn [canonical] in Ht, Hu. cbn [structurally_equal] in Heq.
  destruct Ht as [Hta Hca], Hu as [Htb Hcb].
  apply andb_true_iff in Heq as [Heq Hall].
  apply andb_true_iff in Heq as [Heq Hv%bool_decide_eq_true].
  apply andb_true_iff in Heq as [Heq Hn%bool_decide_eq_true].
  apply andb_true_iff in Heq as [Ho%bool_decide_eq_true Hs%bool_decide_eq_true].
  assert (ca = cb) as Hc.
  { clear Hta Htb Hv Hn Ho Hs. revert cb Hcb Hall.
    induction ca as [|x ca IHca]; intros [|y cb] Hcb Hall; try done.
    destruct Hca as [Hx Hca], Hcb as [Hy Hcb].
    apply andb_true_iff in Hall as [Hxy Hall].
    f_equal; [by apply IH|by apply IHca]. }
  subst. apply Hok; [done|done|].
  apply bool_decide_eq_true. unfold term_key, is_value. simpl.
  by rewrite Hv.
Qed.

(** C4 (amended): whatever calls are made, [get_value] and
    [get_array_values] among them, every logging term that [make_term],
    in any overload, or [make_symbol] has returned since the solver was
    created or last reset is in the hash table, and no two of these terms
    have one key; two of them that are canonical and structurally equal
    are one object. *)
Theorem made_terms_hash_consed s (made : list LoggingTerm) :
  session s made →
  hash_consed s made
  ∧ (∀ t u, t ∈ made → u ∈ made →
       canonical (hashtable s) t → canonical (hashtable s) u →
       structurally_equal t u = true → t = u).
Proof.
  intros [Hok Hin]%session_table. split; [split|].
  - done.
  - intros t u Ht Hu. apply Hok; auto.
  - intros t u _ _. by apply structurally_equal_canonical.
Qed.


Lemma canonical_unfold (table : list LoggingTerm) t :
  canonical table t ↔ t ∈ table ∧ Forall (canonical table) (children t).
Proof.
  destruct t as [i w so o c n]. cbn [canonical children].
  apply and_iff_compat_l. induction c as [|x c IHc].
  - split; [constructor|done].
  - rewrite Forall_cons, IHc. done.
Qed.

Lemma canonical_mono (table table' : list LoggingTerm) :
  table ⊆ table' → ∀ t, canonical table t → canonical table' t.
Proof.
  intros Hsub. fix IH 1. intros [i w so o c n] [Hin Hc].
  split; [by apply Hsub|].
  clear Hin. induction c as [|x c IHc]; [done|].
  destruct Hc as [Hx Hc]. split; [by apply IH|by apply IHc].
Qed.

Lemma exec_make_children c s (rs : list LoggingTerm) s' :
  is_make c = true →
  exec c s = Ret (rs, s') →
  ∃ t res s0,
    rs = [t]
    ∧ hashtable s0 = hashtable s
    ∧ children res = call_args c
    ∧ check_hash_table res s0 = (t, s').
Proof.
  intros Hc He.
  assert (∃ mk, (∀ s t s', mk s = Ret (t, s') →
                   ∃ res s0, hashtable s0 = hashtable s
                             ∧ children res = call_args c
                             ∧ check_hash_table res s0 = (t, s'))
                ∧ exec c = returning mk) as (mk & Hm & Hex).
  { destruct c; try discriminate Hc; simpl; eexists; (split; [|reflexivity]);
      intros ? ? ? H; cbv beta in H;
      unfold make_term_bool, make_term_int, make_term_str,
        make_term_const_array, make_symbol, make_term1, make_term2,
        make_term3, make_term, new_LoggingTerm in H;
      repeat match type of H with
      | mbind _ ?m = Ret _ =>
          let E := fresh "E" in
          destruct m as [[]| | |] eqn:E; simpl in H; try discriminate H
      | (mbind _ ?m) = Ret _ =>
          let E := fresh "E" in
          destruct m as [?| | |] eqn:E; simpl in H; try discriminate H
      | (if ?c then _ else _) = Ret _ =>
          let E := fresh "E" in
          destruct c eqn:E; simpl in H; try discriminate H
      end;
      injection H as H; eexists _, _; (split; [|split; [|exact H]]); done. }
  rewrite Hex in He. unfold returning in He.
  destruct (mk s) as [[t s1]| | |] eqn:Em; simpl in He; try discriminate He.
  injection He as <- <-.
  destruct (Hm _ _ _ Em) as (res & s0 & ? & ? & ?). by exists t, res, s0.
Qed.

(** A constructor whose arguments are entries of the table keeps every
    entry of the table canonical. *)
Lemma exec_make_closed c s (rs : list LoggingTerm) s' :
  is_make c = true →
  (∀ e, e ∈ hashtable s → canonical (hashtable s) e) →
  (∀ a, a ∈ call_args c → a ∈ hashtable s) →
  exec c s = Ret (rs, s') →
  ∀ e, e ∈ hashtable s' → canonical (hashtable s') e.
Proof.
  intros Hc Hclosed Hargs He.
  destruct (exec_make_children _ _ _ _ Hc He)
    as (t & res & s0 & -> & Hs0 & Hch & Hchk).
  apply check_hash_table_cases in Hchk as (_ & _ & [[_ ->] | [-> ->]]);
    rewrite Hs0; [done|].
  assert (hashtable s ⊆ res :: hashtable s) as Hsub
    by (intros x Hx; by right).
  intros e [->|He']%elem_of_cons.
  - apply canonical_unfold. split; [left|]. rewrite Hch.
    apply Forall_forall. intros a Ha.
    apply (canonical_mono _ _ Hsub), Hclosed, Hargs, Ha.
  - by apply (canonical_mono _ _ Hsub), Hclosed.
Qed.

(** ** After a reset *)

(** From a state whose table entries have identities from [lo] on, and
    whose next free identity is [lo] at least, every term that a later
    call returns has an identity from [lo] on. *)
Lemma continued_ids_from s0 s (ts : list LoggingTerm) lo :
  continued s0 s ts →
  (∀ e, e ∈ hashtable s0 → lo ≤ id e) →
  lo ≤ next_id s0 →
  lo ≤ next_id s ∧ ∀ e, e ∈ hashtable s ∨ e ∈ ts → lo ≤ id e.
Proof.
  intros Hc H0 Hlo.
  induction Hc as [|c s ts rs s' _ [IHn IH] He|s ts bs _ IH|s ts s' _ [IHn IH] Hr].
  - split; [done|]. intros e [He|He]; [by apply H0|by apply elem_of_nil in He].
  - destruct (is_make c) eqn:Hmk.
    + destruct (exec_make_allocates_one _ _ _ _ Hmk He)
        as (t & res & s0' & -> & Htab & Hnext & Hid & Hchk).
      apply check_hash_table_cases in Hchk as (_ & Hn & Hcases).
      split; [lia|]. intros u Hu. simpl in Hu.
      assert (u ∈ hashtable s ∨ u ∈ ts ∨ u = res) as Hu'.
      { destruct Hcases as [[Ht Hs'] | [-> Hs']]; rewrite Hs', ?Htab in Hu;
          rewrite ?Htab in *; rewrite ?elem_of_cons in Hu;
          intuition (subst; auto). }
      destruct Hu' as [Hu' | [Hu' | ->]]; [apply IH; auto..|lia].
    + destruct c; try discriminate Hmk.
      * simpl in He. unfold returning in He.
        destruct (get_value t s) as [[v s1]| | |] eqn:Hg; simpl in He;
          try discriminate He.
        injection He as <- <-.
        apply get_value_inv in Hg as (w & bs & _ & -> & ->). simpl.
        split; [lia|].
        intros u [Hu | [-> | Hu]%elem_of_cons]; simpl; [|lia|]; apply IH; auto.
      * apply exec_get_array_values_ids in He as (Htab & Hle & Hrs).
        split; [lia|].
        intros u [Hu|[Hu|Hu]%elem_of_app]; rewrite ?Htab in *.
        -- apply IH; auto.
        -- apply Hrs in Hu. lia.
        -- apply IH; auto.
  - done.
  - unfold reset in Hr.
    destruct (b_reset (solver s)) as [bs| | |]; simpl in Hr;
      try discriminate Hr.
    injection Hr as <-. simpl. split; [done|].
    intros e [He|He]; [by apply elem_of_nil in He|]. apply IH; auto.
Qed.

(** X20: after [reset], every term that a later call returns (a
    constructor, [get_value] or [get_array_values], after any calls and
    further resets) is an object allocated after the reset: no term that
    was handed out or in the table before the reset is ever returned
    again. *)
Theorem no_term_returned_again_after_reset allowed s
    (ts : list LoggingTerm) s1 s2 (rs : list LoggingTerm) :
  produced allowed s ts →
  reset s = Ret (tt, s1) →
  continued s1 s2 rs →
  ∀ t, t ∈ rs →
    (∀ u, u ∈ hashtable s ∨ u ∈ ts → id u < id t)
    ∧ (t ∉ ts)
    ∧ (t ∉ hashtable s).
Proof.
  intros Hp%produced_ids_below Hr Hc t Ht. unfold reset in Hr.
  destruct (b_reset (solver s)) as [bs| | |]; simpl in Hr;
    try discriminate Hr.
  injection Hr as <-.
  apply (continued_ids_from _ _ _ (next_id s)) in Hc as [_ Hc]; simpl;
    [|by intros e He%elem_of_nil|done].
  pose proof (Hc t (or_intror Ht)) as Hge.
  assert (∀ u, u ∈ hashtable s ∨ u ∈ ts → id u < id t) as Hlt.
  { intros u Hu. pose proof (Hp u Hu). lia. }
  split; [done|]. split; intros Hin.
  - pose proof (Hlt t (or_intror Hin)). lia.
  - pose proof (Hlt t (or_introl Hin)). lia.
Qed.

End LoggingSolver.

Section Forwarding.
Context {BState BTerm BSort LSort Result : Type}.
Context `{!EqDecision BTerm, !EqDecision LSort}.
Context `{!Backend BState BTerm BSort, !LoggingSortOps LSort BSort}.
Context `{!BackendControl BState BTerm Result}.

(** X21: [set_opt], [set_logic], [assert_formula], [check_sat],
    [check_sat_assuming], [push], [pop] and [reset_assertions] reach the
    backend only: the hash table and the identities are as before, and
    the terms handed out so far are the same. *)
Theorem exec_control_frame allowed
    (s : @LoggingSolver BState BTerm LSort)
    (ts : list (@LoggingTerm BTerm LSort)) (c : control) r s' :
  produced allowed s ts →
  exec_control c s = Ret (r, s') →
  hashtable s' = hashtable s
  ∧ next_id s' = next_id s
  ∧ produced allowed s' ts.
Proof.
  intros Hp He.
  assert (∃ bs, s' = with_solver bs s) as [bs ->].
  { destruct c; simpl in He;
      unfold no_result, with_result, set_opt, set_logic, assert_formula,
        check_sat, check_sat_assuming, push, pop, reset_assertions in He.
    - destruct (b_set_opt opt value (solver s)) as [bs| | |]; simpl in He;
        try discriminate He. injection He as <- <-. by exists bs.
    - destruct (b_set_logic logic (solver s)) as [bs| | |]; simpl in He;
        try discriminate He. injection He as <- <-. by exists bs.
    - destruct (b_assert_formula (term t) (solver s)) as [bs| | |];
        simpl in He; try discriminate He. injection He as <- <-.
      by exists bs.
    - destruct (b_check_sat (solver s)) as [[res bs]| | |]; simpl in He;
        try discriminate He. injection He as <- <-. by exists bs.
    - destruct (b_check_sat_assuming (term <$> assumptions) (solver s))
        as [[res bs]| | |]; simpl in He; try discriminate He.
      injection He as <- <-. by exists bs.
    - destruct (b_push num (solver s)) as [bs| | |]; simpl in He;
        try discriminate He. injection He as <- <-. by exists bs.
    - destruct (b_pop num (solver s)) as [bs| | |]; simpl in He;
        try discriminate He. injection He as <- <-. by exists bs.
    - destruct (b_reset_assertions (solver s)) as [bs| | |]; simpl in He;
        try discriminate He. injection He as <- <-. by exists bs. }
  repeat split; [done..|]. by apply produced_backend.
Qed.
End Forwarding.

End LoggingMore.

(* ===================================================================== *)
(** * More runs on the small backends *)
(* ===================================================================== *)

Module ExampleMore.
Import Logging LoggingSpec LoggingMore Example ExampleSpec.

(** The example states are the ones the calls lead to. *)
Lemma more_example_states :
  make_symbol "a" arr_sort solver0 = Ret (lt_sym_a, solver_sym_a)
  ∧ make_symbol "b" arr_sort solver0 = Ret (lt_sym_b, solver_sym_b)
  ∧ make_term_const_array lt_arr arr2_sort solver_arr
    = Ret (lt_arr2, solver_arr2)
  ∧ get_array_values (Backend0 := table_backend) lt_sym_a None solver_sym_a
    = Ret (values_sym_a, solver_sym_a_values)
  ∧ reset solver_true = Ret (tt, solver_true_reset)
  ∧ make_term_bool true solver_true_reset
    = Ret (lt_true_value, solver_true_again).
Proof. repeat split. Qed.

Lemma produced_solver_sym_a :
  produced (Backend0 := table_backend) any_call solver_sym_a [lt_sym_a].
Proof.
  exact (produced_call (Backend0 := table_backend) any_call
           (MakeSymbol "a" arr_sort) solver0 [] [lt_sym_a] solver_sym_a
           (produced_new any_call []) eq_refl eq_refl).
Defined.


Lemma get_value_fresh_witness :
  hashtable solver_true_value = hashtable solver_true
  ∧ wrapper (sort lt_true) (next_id solver_true) (next_id solver_true_value)
      lt_true_value
  ∧ (lt_true_value ∉ hashtable solver_true_value)
  ∧ (lt_true_value ∉ [lt_true]).
Proof.
  apply (get_value_fresh is_make solver_true [lt_true] lt_true lt_true_value
           solver_true_value).
  - apply produced_solver_true. reflexivity.
  - reflexivity.
Defined.

Lemma get_array_values_fresh_witness :
  hashtable solver_sym_a_values = hashtable solver_sym_a
  ∧ ∃ idxsort elemsort,
      ls_get_indexsort (sort lt_sym_a) = Ret idxsort
      ∧ ls_get_elemsort (sort lt_sym_a) = Ret elemsort
      ∧ wrapped_map (Backend0 := table_backend) idxsort elemsort
          (next_id solver_sym_a) (next_id solver_sym_a_values)
          (assignments values_sym_a)
      ∧ ∀ k v, (k, v) ∈ assignments values_sym_a →
          (k ∉ hashtable solver_sym_a_values)
          ∧ (v ∉ hashtable solver_sym_a_values)
          ∧ (k ∉ [lt_sym_a]) ∧ (v ∉ [lt_sym_a]).
Proof.
  apply (get_array_values_fresh (Backend0 := table_backend) any_call
           solver_sym_a [lt_sym_a] lt_sym_a None values_sym_a
           solver_sym_a_values).
  - exact produced_solver_sym_a.
  - reflexivity.
Defined.

Lemma get_array_values_unwrap_witness :
  unwrap_map (assignments values_sym_a)
  ≡ₚ [(TInt 1, TInt 10); (TInt 2, TInt 20)].
Proof.
  apply (get_array_values_unwrap (Backend0 := table_backend) lt_sym_a None
           solver_sym_a values_sym_a solver_sym_a_values
           [(TInt 1, TInt 10); (TInt 2, TInt 20)] None ["a"%string]).
  - reflexivity.
  - simpl. apply NoDup_cons. split.
    + intros H%list_elem_of_singleton. discriminate H.
    + apply NoDup_singleton.
  - reflexivity.
Defined.

Lemma get_array_values_array_base_witness :
  get_array_values lt_arr2 None solver_arr2 = Throw NotImplementedException.
Proof.
  apply (get_array_values_array_base lt_arr2 None solver_arr2 IntSort arr_sort
           [] (TConstArray arr_sort (TInt 0)) []).
  - reflexivity.
  - reflexivity.
  - reflexivity.
  - reflexivity.
Defined.

Lemma get_array_values_not_values_witness :
  get_array_values (Backend0 := table_backend) lt_sym_b None solver_sym_b
  = AssertFail.
Proof.
  apply (get_array_values_not_values (Backend0 := table_backend) lt_sym_b
           None solver_sym_b IntSort IntSort [(TSym "i" IntSort, TInt 0)]
           None ["b"%string]).
  - reflexivity.
  - reflexivity.
  - reflexivity.
  - intros w H. discriminate H.
  - exists (TSym "i" IntSort, TInt 0). split.
    + apply list_elem_of_here.
    + left. reflexivity.
Defined.

Lemma make_term_const_array_not_array_witness :
  (∀ r, make_term_const_array lt_true BoolSort solver_true ≠ Ret r)
  ∧ (∀ w bs,
       b_make_term_const_array (term lt_true) (ls_sort BoolSort)
         (solver solver_true) = Ret (w, bs) →
       make_term_const_array lt_true BoolSort solver_true
       = Throw IncorrectUsageException)
  ∧ (∀ e,
       b_make_term_const_array (term lt_true) (ls_sort BoolSort)
         (solver solver_true) = Throw e →
       make_term_const_array lt_true BoolSort solver_true = Throw e).
Proof.
  apply (make_term_const_array_not_array lt_true BoolSort solver_true).
  vm_compute. discriminate.
Defined.

Lemma exec_table_grows_witness :
  next_id solver0 ≤ next_id solver_true
  ∧ (hashtable solver_true = hashtable solver0
     ∨ ∃ t, [lt_true] = [t] ∧ id t = next_id solver0
            ∧ hashtable solver_true = t :: hashtable solver0).
Proof.
  apply (exec_table_grows (MakeTermBool true) solver0 [lt_true] solver_true).
  reflexivity.
Defined.

Lemma no_term_returned_again_after_reset_witness :
  ((∀ u, u ∈ hashtable solver_true ∨ u ∈ [lt_true] →
      id u < id lt_true_value)
   ∧ (lt_true_value ∉ [lt_true])
   ∧ (lt_true_value ∉ hashtable solver_true))
  ∧ ((∀ u, u ∈ hashtable solver_true ∨ u ∈ [lt_true] →
        id u < id lt_true_value2)
     ∧ (lt_true_value2 ∉ [lt_true])
     ∧ (lt_true_value2 ∉ hashtable solver_true)).
Proof.
  assert (produced is_make solver_true [lt_true]) as Hp
    by (apply produced_solver_true; reflexivity).
  assert (continued solver_true_reset solver_true_again2
            [lt_true_value2; lt_true_value]) as Hc.
  { exact (continued_call solver_true_reset (GetValue lt_true_value)
             solver_true_again [lt_true_value] [lt_true_value2]
             solver_true_again2
             (continued_call solver_true_reset (MakeTermBool true)
                solver_true_reset [] [lt_true_value] solver_true_again
                (continued_here solver_true_reset) eq_refl)
             eq_refl). }
  split.
  - apply (no_term_returned_again_after_reset is_make solver_true [lt_true]
             solver_true_reset solver_true_again2
             [lt_true_value2; lt_true_value] Hp eq_refl Hc lt_true_value).
    right. left.
  - apply (no_term_returned_again_after_reset is_make solver_true [lt_true]
             solver_true_reset solver_true_again2
             [lt_true_value2; lt_true_value] Hp eq_refl Hc lt_true_value2).
    left.
Defined.

Lemma exec_control_frame_witness :
  hashtable solver_true = hashtable solver_true
  ∧ next_id solver_true = next_id solver_true
  ∧ produced is_make solver_true [lt_true].
Proof.
  apply (exec_control_frame (Result := Result) is_make solver_true [lt_true]
           (AssertFormula lt_true) None solver_true).
  - apply produced_solver_true. reflexivity.
  - reflexivity.
Defined.

(** A session with a call of [get_value] in it: [make_term(true)],
    [get_value] of the result, [make_term(Not, lt_true)], and
    [make_term(Not, v)] for the term [v] that [get_value] returned. *)
Lemma session_solver_not_value :
  session solver_not_value [lt_not_value; lt_not; lt_true].
Proof.
  exact (session_make (MakeTerm1 (mkOp Not []) lt_true_value) solver_not
           [lt_not; lt_true] [lt_not_value] solver_not_value
           (session_make (MakeTerm1 (mkOp Not []) lt_true) solver_true_value
              [lt_true] [lt_not] solver_not
              (session_query (GetValue lt_true) solver_true [lt_true]
                 [lt_true_value] solver_true_value
                 (session_make (MakeTermBool true) solver0 [] [lt_true]
                    solver_true (session_new []) eq_refl eq_refl)
                 eq_refl eq_refl)
              eq_refl eq_refl)
           eq_refl eq_refl).
Defined.

Lemma made_terms_hash_consed_witness :
  hash_consed solver_not_value [lt_not_value; lt_not; lt_true]
  ∧ (∀ t u, t ∈ [lt_not_value; lt_not; lt_true] →
       u ∈ [lt_not_value; lt_not; lt_true] →
       canonical (hashtable solver_not_value) t →
       canonical (hashtable solver_not_value) u →
       structurally_equal t u = true → t = u).
Proof.
  apply (made_terms_hash_consed solver_not_value
           [lt_not_value; lt_not; lt_true]).
  exact session_solver_not_value.
Defined.

(** Why the terms must be canonical: in the session above, the two
    negations are two entries of the table and structurally equal, and
    they are two objects with two keys; the first is canonical, the second
    is built on the term that [get_value] returned, which is no entry of
    the table. *)
Lemma negations_not_shared :
  structurally_equal lt_not lt_not_value = true
  ∧ term_equal lt_not lt_not_value = false
  ∧ id lt_not ≠ id lt_not_value
  ∧ lt_not ∈ hashtable solver_not_value
  ∧ lt_not_value ∈ hashtable solver_not_value
  ∧ canonical (hashtable solver_not_value) lt_not
  ∧ ¬ canonical (hashtable solver_not_value) lt_not_value.
Proof.
  split; [done|]. split; [done|]. split; [done|].
  split; [by right; left|]. split; [by left|]. split.
  - repeat split; [by right; left|by right; right; left].
  - intros (_ & (Hv & _) & _). simpl in Hv.
    repeat (apply elem_of_cons in Hv as [Hv|Hv]; [discriminate Hv|]).
    by apply elem_of_nil in Hv.
Qed.

End ExampleMore.
